(** * sails-disk: the file-backed datastore of [lib/database.js]

    A shallow embedding of the [Database] object and of its methods, and the
    properties of the storage engine that the specification states about it.

    Conventions of the embedding.
    - A JavaScript object used as a record (a stored record, a schema) is the
      list of its own enumerable properties in enumeration order, the order of
      [for .. in] and of [Object.keys]; property names are distinct
      ([wf_obj]).  Property names are taken not to be array indices, so that a
      property that is added is enumerated last.
    - The three stores [data], [schema] and [counters], keyed by collection
      name, are finite maps: only lookup, assignment and [delete] are used on
      them.
    - A method that reports through its callback returns the callback's
      arguments as a [result] next to the new state of the object.
    - The asynchronous steps of a method, its calls into [fs], run to
      their end within the method: no other method runs in between.
    - A record is a value.  That [insert] stores the very object it was
      given, which its caller may go on changing, is not represented.
    - Numbers are integers held as doubles: the counters are, and the only
      arithmetic of the engine, [counter++], is exact up to [2^53] and rounded
      to the nearest double from there on.  [NaN], infinities and fractions
      are outside the model.
    - The libraries are the ones that the package file asks for: lodash
      [^4.17.15], which has neither [_.where] nor [_.contains], so that
      calling either raises a [TypeError]; and async [~3.1.0], whose [auto]
      hands a task that has dependencies the results first and the callback
      second.
    - The text of the persisted file, when [JSON.parse] returns for it, is
      [null] or an object with the three stores, which is what [write] puts
      there; a text such as [5] or [{}], which would leave the engine with
      stores that are [undefined], is outside the model. *)

From Stdlib Require Import ZArith Lia Ascii.
From stdpp Require Import gmap strings pretty list fin_maps.

Local Open Scope list_scope.

(** ** Values *)

(** A JavaScript value as the engine sees it.  A heap object (object literal,
    array, date) is known by its address only: the engine compares such values
    by identity and never looks inside them. *)
Inductive value : Type :=
| VUndefined
| VNull
| VBool (b : bool)
| VNum (n : Z)
| VStr (s : string)
| VObject (ref : positive).

#[global] Instance value_eq_dec : EqDecision value.
Proof. solve_decision. Defined.

(** [!!v] *)
Definition truthy (v : value) : bool :=
  match v with
  | VUndefined | VNull => false
  | VBool b => b
  | VNum n => negb (n =? 0)%Z
  | VStr s => negb (String.eqb s "")
  | VObject _ => true
  end.

(** [a === b]: same type and same value; objects by identity. *)
Definition strict_eq (a b : value) : bool := bool_decide (a = b).

(** [_.isUndefined] *)
Definition isUndefined (v : value) : bool :=
  match v with VUndefined => true | _ => false end.

(** ** Numbers *)

(** The integer nearest to [m] among the doubles, ties going to the even
    significand: [m] itself up to [2^53] in absolute value, a multiple of the
    power of two that leaves 53 bits beyond. *)
Definition round_double (m : Z) : Z :=
  let a := Z.abs m in
  if (a <=? 2 ^ 53)%Z then m
  else
    let q := (2 ^ (Z.log2 a - 52))%Z in
    let lo := (a / q)%Z in
    let r := (a mod q)%Z in
    let up := (q <? 2 * r)%Z || ((q =? 2 * r)%Z && Z.odd lo) in
    (Z.sgn m * ((if up then lo + 1 else lo) * q))%Z.

(** [n++]: the new value of [n]. *)
Definition js_succ (n : Z) : Z := round_double (n + 1).

(** ** Objects as property lists *)

Abbreviation obj A := (list (string * A)).
Abbreviation record := (list (string * value)).

Definition wf_obj {A} (o : obj A) : Prop := NoDup o.*1.

(** [Object.keys(o)], [_.keys(o)] *)
Definition keys {A} (o : obj A) : list string := o.*1.

(** The own property [k] of [o], if any: [o.hasOwnProperty(k)] and [o[k]]. *)
Fixpoint own {A} (o : obj A) (k : string) : option A :=
  match o with
  | [] => None
  | (k', v) :: o' => if String.eqb k k' then Some v else own o' k
  end.

(** [r[k]] on a record: [undefined] when the property is missing. *)
Definition prop (r : record) (k : string) : value :=
  match own r k with Some v => v | None => VUndefined end.

(** [o[k] = v]: an existing property keeps its place, a new one goes last. *)
Fixpoint assign {A} (o : obj A) (k : string) (v : A) : obj A :=
  match o with
  | [] => [(k, v)]
  | (k', v') :: o' =>
      if String.eqb k k' then (k', v) :: o' else (k', v') :: assign o' k v
  end.

(** [_.extend(target, source)]: every own property of [source] is assigned
    on [target]. *)
Definition extend (target source : record) : record :=
  foldl (fun t kv => assign t kv.1 kv.2) target source.

(** ** Schema *)

(** The fields of an attribute definition that the engine reads:
    [attrDef.type], [attrDef.unique], [attrDef.autoIncrement]. *)
Module Attr.
Record attrDef : Type := {
  type : option string;
  unique : bool;
  autoIncrement : bool
}.
End Attr.
Abbreviation attrDef := Attr.attrDef.

Abbreviation schemaT := (list (string * attrDef)).

(** ** Errors and results *)

Inductive error : Type :=
| NoFilePath
    (* new Error('No filePath was configured for this collection') *)
| CollectionNotRegistered
    (* Errors.CollectionNotRegistered *)
| UniquenessValue (attrName : string) (v : value)
    (* 'Uniqueness check failed on attribute: ' + attrName +
       ' with value: ' + v *)
| UniquenessAttributes (attrNames : list string)
    (* 'Uniqueness check failed on attributes: ' + attrNames.join(',') *)
| IOError (path : string)
    (* an error of the file system *)
| SyntaxError (text : string)
    (* thrown by JSON.parse *).

#[global] Instance error_eq_dec : EqDecision error.
Proof. solve_decision. Defined.

(** What a method hands to its callback: [cb(null, a)], [cb(err)] with one
    error, [cb(errors)] with an array of them; or a [TypeError] that escapes
    the method before the callback is reached. *)
Inductive result (A : Type) : Type :=
| Done (a : A)
| Fail (e : error)
| FailAll (es : list error)
| TypeError.

Arguments Done {A} a.
Arguments Fail {A} e.
Arguments FailAll {A} es.
Arguments TypeError {A}.

(** ** The store *)

Record resultSet : Type := {
  results : list record;
  indicies : list nat
}.

(** The content of the persisted file: [{ data, schema, counters }]. *)
Record EngineState : Type := {
  st_data : gmap string (list record);
  st_schema : gmap string schemaT;
  st_counters : gmap string (gmap string Z)
}.

Definition emptyState : EngineState :=
  {| st_data := ∅; st_schema := ∅; st_counters := ∅ |}.

(** [JSON.parse(text)] on the text of the persisted file: it throws a
    [SyntaxError], or returns [null], or returns an object with the three
    stores. *)
Inductive parsed : Type :=
| Thrown
| ParsedNull
| Parsed (state : EngineState).

Definition collectionDef : Type := option (list record) * option schemaT.

Record Database : Type := {
  filePath : string;
  collections : obj collectionDef;
  data : gmap string (list record);
  counters : gmap string (gmap string Z);
  schema : gmap string schemaT;
  (** the tasks pushed on [writeQueue] and not yet handed to its worker *)
  writeQueue : list string
}.

Definition set_data (db : Database) (d : gmap string (list record)) : Database :=
  {| filePath := filePath db; collections := collections db; data := d;
     counters := counters db; schema := schema db;
     writeQueue := writeQueue db |}.

Definition set_counters (db : Database) (c : gmap string (gmap string Z)) : Database :=
  {| filePath := filePath db; collections := collections db; data := data db;
     counters := c; schema := schema db; writeQueue := writeQueue db |}.

Definition set_schema (db : Database) (s : gmap string schemaT) : Database :=
  {| filePath := filePath db; collections := collections db; data := data db;
     counters := counters db; schema := s; writeQueue := writeQueue db |}.

(** [this.writeQueue.push(collectionName)] *)
Definition writeQueue_push (db : Database) (collectionName : string) : Database :=
  {| filePath := filePath db; collections := collections db; data := data db;
     counters := counters db; schema := schema db;
     writeQueue := writeQueue db ++ [collectionName] |}.

(** [!this.filePath] *)
Definition noFilePath (db : Database) : bool := String.eqb (filePath db) "".

(** The constructor.  [config.filePath + config.identity + '.db']: a missing
    field concatenates with a string as the text [undefined]; two missing
    fields add up to [NaN]. *)
Record Config : Type := {
  config_filePath : option string;
  config_identity : option string
}.

Definition str_of (o : option string) : string := default "undefined" o.

Definition Database_new (config : Config) (colls : obj collectionDef) : Database :=
  {| filePath :=
       match config_filePath config, config_identity config with
       | None, None => "NaN.db"
       | filePath_, identity =>
           str_of filePath_ +:+ str_of identity +:+ ".db"
       end;
     collections := colls;
     data := ∅; counters := ∅; schema := ∅; writeQueue := [] |}.

(** ** The file system *)

(** The files by path, with their text, and the paths on which the file
    system refuses to create, read or write. *)
Record Disk : Type := {
  files : gmap string string;
  denied : gset string
}.

(** [fs.exists(path, cb)] *)
Definition fs_exists (disk : Disk) (path : string) : bool :=
  bool_decide (is_Some (files disk !! path)).

(** [fs.createFile(path, cb)]: creates the file, empty, unless it exists. *)
Definition fs_createFile (disk : Disk) (path : string) : error + Disk :=
  if bool_decide (path ∈ denied disk) then inl (IOError path)
  else if fs_exists disk path then inr disk
  else inr {| files := <[path := ""]> (files disk); denied := denied disk |}.

(** [fs.outputJson(path, object, cb)], on the text of the object *)
Definition fs_outputJson (disk : Disk) (path text : string) : error + Disk :=
  if bool_decide (path ∈ denied disk) then inl (IOError path)
  else inr {| files := <[path := text]> (files disk); denied := denied disk |}.

(** [fs.readFile(path, { encoding: 'utf8' }, cb)] *)
Definition fs_readFile (disk : Disk) (path : string) : error + string :=
  if bool_decide (path ∈ denied disk) then inl (IOError path)
  else match files disk !! path with
       | Some text => inr text
       | None => inl (IOError path)
       end.

(** ** lodash

    The members of lodash [^4.17.15] that [database.js] calls and whose
    behaviour matters to it.  A name that the library does not define reads
    as [undefined], here [None]: calling it raises a [TypeError]. *)

Module Lodash.

(** [_.where]: lodash 4 has no such member. *)
Definition where_ : option (list string → (string → bool) → list string) := None.

(** [_.contains]: lodash 4 has no such member (it is [_.includes] there). *)
Definition contains : option (list nat → nat → bool) := None.

(** [_.reject(collection, predicate)] on an array, from the position [i]
    on: the elements for which [predicate(element, index)] returns a falsy
    value, in their order.  The predicate is called on every element, and an
    exception that it raises, [None], escapes.  A collection that is missing
    counts as the empty array. *)
Fixpoint reject {A} (predicate : A → nat → option bool) (i : nat)
    (collection : list A) : option (list A) :=
  match collection with
  | [] => Some []
  | element :: rest =>
      match predicate element i with
      | None => None
      | Some rejected =>
          match reject predicate (S i) rest with
          | None => None
          | Some others => Some (if rejected then others else element :: others)
          end
      end
  end.

End Lodash.

(** ** Sample collaborators and a sample store

    Concrete stand-ins for what the engine takes from outside, for running
    the methods on examples: an evaluator for the one-attribute query, and the
    runtime's conversions on the values the examples use. *)

Module Sample.

(** A query [{ where: { attribute: v } }]. *)
Definition criteria : Type := string * value.

Fixpoint matching (i : nat) (options : criteria) (records : list record)
    : list (nat * record) :=
  match records with
  | [] => []
  | r :: rest =>
      if strict_eq (prop r options.1) options.2
      then (i, r) :: matching (S i) options rest
      else matching (S i) options rest
  end.

Definition waterlineCriteria (collectionName : string)
    (data_ : gmap string (list record)) (options : criteria) : resultSet :=
  let found := matching 0 options (default [] (data_ !! collectionName)) in
  {| results := found.*2; indicies := found.*1 |}.

(** No grouping, no sorting. *)
Definition Aggregate (options : criteria) (rs : list record)
    : error + list record := inr rs.

Definition digit (c : ascii) : option Z :=
  let n := nat_of_ascii c in
  if (48 <=? n)%nat && (n <=? 57)%nat then Some (Z.of_nat (n - 48)) else None.

Fixpoint digits (acc : Z) (s : string) : option Z :=
  match s with
  | EmptyString => Some acc
  | String c s' =>
      match digit c with
      | Some d => digits (10 * acc + d)%Z s'
      | None => None
      end
  end.

Definition unsigned (s : string) : option Z :=
  match s with
  | EmptyString => None
  | _ => digits 0%Z s
  end.

(** [ToNumber] on the empty string and on decimal integers with a sign. *)
Definition StringToNumber (s : string) : option Z :=
  match s with
  | EmptyString => Some 0%Z
  | String "-" s' => Z.opp <$> unsigned s'
  | String "+" s' => unsigned s'
  | _ => unsigned s
  end.

(** A JSON integer: no [+], no leading zero. *)
Definition json_integer (s : string) : option Z :=
  match s with
  | String "-" (String "0" (String _ _)) | String "0" (String _ _) => None
  | String "-" s' => Z.opp <$> unsigned s'
  | _ => unsigned s
  end.

(** [JSON.parse] on the values whose text is one of the literals [null],
    [true], [false] or an integer.  [undefined] and a plain object (whose
    text is [[object Object]]) make it throw; so does, in this sample, every
    other text. *)
Definition JSON_parse (v : value) : option value :=
  match v with
  | VUndefined | VObject _ => None
  | VNull => Some VNull
  | VBool b => Some (VBool b)
  | VNum n => Some (VNum n)
  | VStr s =>
      if String.eqb s "null" then Some VNull
      else if String.eqb s "true" then Some (VBool true)
      else if String.eqb s "false" then Some (VBool false)
      else VNum <$> json_integer s
  end.

Definition ToPrimitive (ref : positive) : value := VStr "[object Object]".

(** The text of a state: names and strings are printed between quotes as
    they are, an [undefined] property is left out, a heap object prints as
    an empty object. *)
Definition dq : string := String (ascii_of_nat 34) EmptyString.

Definition quoted (s : string) : string := dq +:+ s +:+ dq.

Definition braces (members : list string) : string :=
  "{" +:+ String.concat "," members +:+ "}".

Definition brackets (items : list string) : string :=
  "[" +:+ String.concat "," items +:+ "]".

Definition member (name text : string) : string := quoted name +:+ ":" +:+ text.

Definition print_bool (b : bool) : string := if b then "true" else "false".

Definition print_value (v : value) : string :=
  match v with
  | VUndefined | VNull => "null"
  | VBool b => print_bool b
  | VNum n => pretty n
  | VStr s => quoted s
  | VObject _ => "{}"
  end.

Definition print_record (r : record) : string :=
  braces (List.map (fun kv => member kv.1 (print_value kv.2))
            (List.filter (fun kv => negb (isUndefined kv.2)) r)).

Definition print_attrDef (d : attrDef) : string :=
  braces ((match Attr.type d with
           | Some t => [member "type" (quoted t)]
           | None => []
           end)
          ++ [member "unique" (print_bool (Attr.unique d));
              member "autoIncrement" (print_bool (Attr.autoIncrement d))]).

Definition print_map {A} (print : A → string) (m : gmap string A) : string :=
  braces (List.map (fun kv => member kv.1 (print kv.2)) (map_to_list m)).

Definition JSON_stringify_state (state : EngineState) : string :=
  braces
    [member "data"
       (print_map (fun rs => brackets (List.map print_record rs)) (st_data state));
     member "schema"
       (print_map (fun sch => braces (List.map (fun kv => member kv.1 (print_attrDef kv.2)) sch))
          (st_schema state));
     member "counters"
       (print_map (print_map (fun n : Z => pretty n)) (st_counters state))].

(** The decoder of the sample knows the text [null] and the text of the
    empty state; every other text makes it throw. *)
Definition JSON_parse_state (text : string) : parsed :=
  if String.eqb text "null" then ParsedNull
  else if String.eqb text (JSON_stringify_state emptyState) then Parsed emptyState
  else Thrown.

(** The collection [users] of the specification's scenario:
    [{ id: autoIncrement, email: unique }]. *)
Definition plain : attrDef :=
  {| Attr.type := None; Attr.unique := false; Attr.autoIncrement := false |}.

Definition users_schema : schemaT :=
  [("id", {| Attr.type := Some "integer"; Attr.unique := false;
             Attr.autoIncrement := true |});
   ("email", {| Attr.type := Some "string"; Attr.unique := true;
                Attr.autoIncrement := false |})].

Definition config : Config :=
  {| config_filePath := Some ".tmp/"; config_identity := Some "disk" |}.

Definition empty_disk : Disk := {| files := ∅; denied := ∅ |}.

(** A store with two users. *)
Definition alice : record := [("email", VStr "a@x.com"); ("id", VNum 1)].
Definition bob : record := [("email", VStr "b@x.com"); ("id", VNum 2)].

Definition users_db : Database :=
  {| filePath := ".tmp/disk.db"; collections := [];
     data := {[ "users" := [alice; bob] ]};
     counters := {[ "users" := {[ "id" := 2%Z ]} ]};
     schema := {[ "users" := users_schema ]};
     writeQueue := [] |}.




(** A collection with an attribute of type [json]. *)
Definition docs_schema : schemaT :=
  [("id", {| Attr.type := Some "integer"; Attr.unique := false;
             Attr.autoIncrement := true |});
   ("meta", {| Attr.type := Some "json"; Attr.unique := false;
               Attr.autoIncrement := false |});
   ("title", {| Attr.type := Some "string"; Attr.unique := false;
                Attr.autoIncrement := false |})].

Definition docs_db : Database :=
  {| filePath := ".tmp/disk.db"; collections := [];
     data := {[ "docs" := [] ]};
     counters := {[ "docs" := ∅ ]};
     schema := {[ "docs" := docs_schema ]};
     writeQueue := [] |}.

(** A collection with a unique [code], held as the number 7 by one record
    and as the string 7 by the other. *)
Definition tickets_schema : schemaT :=
  [("id", plain);
   ("code", {| Attr.type := None; Attr.unique := true;
               Attr.autoIncrement := false |})].

Definition tickets_db : Database :=
  {| filePath := ".tmp/disk.db"; collections := [];
     data := {[ "tickets" := [ [("id", VNum 1); ("code", VNum 7)];
                               [("id", VNum 2); ("code", VStr "7")] ] ]};
     counters := {[ "tickets" := ∅ ]};
     schema := {[ "tickets" := tickets_schema ]};
     writeQueue := [] |}.

(** Disks: the file of the engine missing, empty, and with a text that is
    no JSON. *)
Definition empty_file_disk : Disk :=
  {| files := {[ ".tmp/disk.db" := "" ]}; denied := ∅ |}.

Definition corrupt_disk : Disk :=
  {| files := {[ ".tmp/disk.db" := "{ data: " ]}; denied := ∅ |}.

(** A decoder that knows the texts of the states of a list: the first state
    of the list that prints as the text. *)
Definition JSON_parse_among (known : list EngineState) (text : string)
    : parsed :=
  if String.eqb text "null" then ParsedNull
  else
    match List.find (fun state => String.eqb (JSON_stringify_state state) text)
            known with
    | Some state => Parsed state
    | None => Thrown
    end.

(** Two configured collections, and a disk with the file of the store of
    the two users. *)
Definition configured : list (string * collectionDef) :=
  [("users", (None, Some users_schema)); ("docs", (Some [], Some docs_schema))].

Definition users_state : EngineState :=
  {| st_data := data users_db; st_schema := schema users_db;
     st_counters := counters users_db |}.

Definition users_disk : Disk :=
  {| files := {[ ".tmp/disk.db" := JSON_stringify_state users_state ]};
     denied := ∅ |}.

Definition locked_disk : Disk :=
  {| files := ∅; denied := {[ ".tmp/disk.db" ]} |}.

(** The store of the two users, with the configured collections; and with
    three writes waiting. *)
Definition loaded_db : Database :=
  {| filePath := ".tmp/disk.db"; collections := configured;
     data := data users_db; counters := counters users_db;
     schema := schema users_db; writeQueue := [] |}.

Definition queued_db : Database :=
  {| filePath := ".tmp/disk.db"; collections := [];
     data := data users_db; counters := counters users_db;
     schema := schema users_db; writeQueue := ["users"; "docs"; "users"] |}.

End Sample.

(** ** The methods of [Database] *)

(** The object [{ data, schema, counters }] of one collection. *)
Record Collection : Type := {
  c_data : list record;
  c_schema : schemaT;
  c_counters : gmap string Z
}.

(** What becomes of a method that [async] drives: it ends as [result] has
    it, or its callback is never called. *)
Inductive outcome (A : Type) : Type :=
| Ended (r : result A)
| NeverCalledBack.

Arguments Ended {A} r.
Arguments NeverCalledBack {A}.

Section Methods.

(** What the engine takes from outside: the criteria evaluator, the
    aggregate processor and the language runtime ([JSON], the conversions
    behind [==]). *)

(** the query of the criteria evaluator *)
Context {criteria : Type}.
(** [waterlineCriteria(collectionName, data, options)] *)
Context (waterlineCriteria :
           string → gmap string (list record) → criteria → resultSet).
(** [new Aggregate(options, results)]: its [error], or its [results] *)
Context (Aggregate : criteria → list record → error + list record).
(** [JSON.parse(v)]; [None] when it throws *)
Context (JSON_parse : value → option value).
(** [JSON.parse(text)] on the text of the persisted file *)
Context (JSON_parse_state : string → parsed).
(** the text that [fs.outputJson] writes for [{ data, schema, counters }] *)
Context (JSON_stringify_state : EngineState → string).
(** [ToPrimitive] of a heap object *)
Context (ToPrimitive : positive → value).
(** [ToNumber] of a string; [None] when the result is no integer *)
Context (StringToNumber : string → option Z).

(** *** Collections *)

(** [setCollection(collectionName, options, cb)].  The array that
    [data.concat(options.data || [])] builds is dropped by the source:
    [options.data] has no effect. *)
Definition setCollection (db : Database) (collectionName : string)
    (options : collectionDef) : result Collection * Database :=
  if noFilePath db then (Fail NoFilePath, db) else
  let data_ := default [] (data db !! collectionName) in
  let db1 := set_data db (<[collectionName := data_]> (data db)) in
  let counters_ := default ∅ (counters db1 !! collectionName) in
  let db2 := set_counters db1 (<[collectionName := counters_]> (counters db1)) in
  let schema_ := default [] options.2 in
  let db3 := set_schema db2 (<[collectionName := schema_]> (schema db2)) in
  (Done {| c_data := data_; c_schema := schema_; c_counters := counters_ |}, db3).

(** [registerCollection(collectionName, collection, cb)] *)
Definition registerCollection (db : Database) (collectionName : string)
    (collection : collectionDef) : result Collection * Database :=
  setCollection db collectionName collection.

(** [getCollection(collectionName, cb)]: a store that has no entry for the
    name reads as an empty object. *)
Definition getCollection (db : Database) (collectionName : string)
    : result Collection :=
  if noFilePath db then Fail NoFilePath else
  Done {| c_data := default [] (data db !! collectionName);
          c_schema := default [] (schema db !! collectionName);
          c_counters := default ∅ (counters db !! collectionName) |}.

(** [createCollection(collectionName, definition, cb)] *)
Definition createCollection (db : Database) (collectionName : string)
    (definition : option schemaT) : result schemaT * Database :=
  match setCollection db collectionName (None, definition) with
  | (Done collection, db1) =>
      (Done (c_schema collection), writeQueue_push db1 collectionName)
  | (Fail e, db1) => (Fail e, db1)
  | (FailAll es, db1) => (FailAll es, db1)
  | (TypeError, db1) => (TypeError, db1)
  end.

(** [describe(collectionName, cb)]: [None] is the [null] schema. *)
Definition describe (db : Database) (collectionName : string)
    : result (option schemaT) :=
  match getCollection db collectionName with
  | Done data_ =>
      Done (if bool_decide (0 < length (keys (c_schema data_)))%nat
            then Some (c_schema data_) else None)
  | Fail e => Fail e
  | FailAll es => FailAll es
  | TypeError => TypeError
  end.

(** *** Constraints *)

(** The inner loop of [uniqueConstraint]: the records of the collection, for
    one unique attribute. *)
Definition uniqueConstraint_records (values : record) (attrName : string)
    (errors : list error) (records : list record) : list error :=
  foldl (fun errors r =>
           if isUndefined (prop values attrName) then errors
           else if strict_eq (prop values attrName) (prop r attrName)
                then errors ++ [UniquenessValue attrName (prop values attrName)]
                else errors)
        errors records.

(** [uniqueConstraint(collectionName, values)].  [for .. in] over a store
    entry that is missing runs no iteration. *)
Definition uniqueConstraint (db : Database) (collectionName : string)
    (values : record) : list error :=
  foldl (fun errors attr =>
           let '(attrName, attrDef_) := attr in
           if negb (Attr.unique attrDef_) then errors
           else uniqueConstraint_records values attrName errors
                  (default [] (data db !! collectionName)))
        [] (default [] (schema db !! collectionName)).

(** One turn of the loop of [autoIncrement], on the counters of the
    collection and the values. *)
Definition autoIncrement_attr (st : gmap string Z * record)
    (attr : string * attrDef) : gmap string Z * record :=
  let '(counters_, values) := st in
  let '(attrName, attrDef_) := attr in
  if negb (Attr.autoIncrement attrDef_) then st
  else if truthy (prop values attrName) then st
  else
    (* if(!counters[attrName]) counters[attrName] = 0 *)
    let counters0 :=
      match counters_ !! attrName with
      | Some c => if (c =? 0)%Z then <[attrName := 0%Z]> counters_ else counters_
      | None => <[attrName := 0%Z]> counters_
      end in
    (* counters[attrName]++ *)
    let c := js_succ (default 0%Z (counters0 !! attrName)) in
    (<[attrName := c]> counters0, assign values attrName (VNum c)).

(** Whether a turn of the loop reaches [this.counters[collectionName]]. *)
Definition autoIncrement_needed (values : record) (attr : string * attrDef) : bool :=
  Attr.autoIncrement attr.2 && negb (truthy (prop values attr.1)).

(** [autoIncrement(collectionName, values)].  When the collection has no
    counters object the first attribute to increment raises a [TypeError],
    before anything is changed. *)
Definition autoIncrement (db : Database) (collectionName : string)
    (values : record) : result record * Database :=
  let schema_ := default [] (schema db !! collectionName) in
  match counters db !! collectionName with
  | None =>
      if existsb (autoIncrement_needed values) schema_
      then (TypeError, db) else (Done values, db)
  | Some counters_ =>
      let '(counters', values') :=
        foldl autoIncrement_attr (counters_, values) schema_ in
      (Done values',
       set_counters db (<[collectionName := counters']> (counters db)))
  end.

(** One key of the loop of [serializeValues]: nothing is done without a
    schema for the collection, for a key the schema does not own, or for an
    attribute whose [type] is not ['json']; [JSON.parse] throwing is caught
    and leaves the value. *)
Definition serializeValues_key (db : Database) (collectionName : string)
    (values : record) (key : string) : record :=
  match schema db !! collectionName with
  | None => values
  | Some schema_ =>
      match own schema_ key with
      | None => values
      | Some attrDef_ =>
          if bool_decide (Attr.type attrDef_ = Some "json") then
            match JSON_parse (prop values key) with
            | None => values
            | Some val => assign values key val
            end
          else values
      end
  end.

(** [serializeValues(collectionName, values)] *)
Definition serializeValues (db : Database) (collectionName : string)
    (values : record) : record :=
  foldl (serializeValues_key db collectionName) values (keys values).

(** *** Records *)

(** [insert(collectionName, values, cb)] *)
Definition insert (db : Database) (collectionName : string) (values : record)
    : result record * Database :=
  if noFilePath db then (Fail NoFilePath, db) else
  let errors := uniqueConstraint db collectionName values in
  if bool_decide (0 < length errors)%nat then (FailAll errors, db) else
  match autoIncrement db collectionName values with
  | (Done values1, db1) =>
      let values2 := serializeValues db1 collectionName values1 in
      match data db1 !! collectionName with
      | None => (Fail CollectionNotRegistered, db1)
      | Some records =>
          (Done values2,
           writeQueue_push
             (set_data db1 (<[collectionName := records ++ [values2]]> (data db1)))
             collectionName)
      end
  | (Fail e, db1) => (Fail e, db1)
  | (FailAll es, db1) => (FailAll es, db1)
  | (TypeError, db1) => (TypeError, db1)
  end.

(** [a == b] on values that are no objects (ECMAScript 5, 11.9.3). *)
Definition number_eq_string (n : Z) (s : string) : bool :=
  match StringToNumber s with
  | Some m => (n =? m)%Z
  | None => false
  end.

Definition ToNumber_bool (b : bool) : Z := if b then 1%Z else 0%Z.

Definition loose_eq_primitive (a b : value) : bool :=
  match a, b with
  | VUndefined, VUndefined | VUndefined, VNull
  | VNull, VUndefined | VNull, VNull => true
  | VNum x, VNum y => (x =? y)%Z
  | VStr x, VStr y => String.eqb x y
  | VBool x, VBool y => Bool.eqb x y
  | VNum x, VStr y => number_eq_string x y
  | VStr x, VNum y => number_eq_string y x
  | VBool x, VNum y => (ToNumber_bool x =? y)%Z
  | VNum x, VBool y => (x =? ToNumber_bool y)%Z
  | VBool x, VStr y => number_eq_string (ToNumber_bool x) y
  | VStr x, VBool y => number_eq_string (ToNumber_bool y) x
  | _, _ => false
  end.

(** [a == b]: two objects by identity, an object against a string, a number
    or a boolean through [ToPrimitive]. *)
Definition loose_eq (a b : value) : bool :=
  match a, b with
  | VObject x, VObject y => bool_decide (x = y)
  | VObject _, VUndefined | VObject _, VNull
  | VUndefined, VObject _ | VNull, VObject _ => false
  | VObject x, _ => loose_eq_primitive (ToPrimitive x) b
  | _, VObject y => loose_eq_primitive a (ToPrimitive y)
  | _, _ => loose_eq_primitive a b
  end.

(** [select(collectionName, options, cb)] *)
Definition select (db : Database) (collectionName : string) (options : criteria)
    : result (list record) :=
  if noFilePath db then Fail NoFilePath else
  let resultSet_ := waterlineCriteria collectionName (data db) options in
  match Aggregate options (results resultSet_) with
  | inl e => Fail e
  | inr rs => Done rs
  end.

(** The check of [update] on the one matched record. *)
Definition update_check (result_ values : record) (uniqueAttrs : list string)
    : list error :=
  foldl (fun errors uniqueAttr =>
           if negb (loose_eq (prop result_ uniqueAttr) (prop values uniqueAttr))
           then errors ++ [UniquenessValue uniqueAttr (prop values uniqueAttr)]
           else errors)
        [] uniqueAttrs.

(** One turn of the [forEach] of [update]: the record at [matchIndex] is
    extended in place and a deep copy of it is pushed on [results].  A deep
    copy has the content of its original; references to heap objects stand
    for themselves in it.  The evaluator returns positions of records of the
    collection; for a position past the end of the array (where JavaScript
    would grow the array) the turn is modelled as doing nothing. *)
Definition update_match (values : record) (st : list record * list record)
    (matchIndex : nat) : list record * list record :=
  let '(records, results_) := st in
  match records !! matchIndex with
  | Some _values =>
      let merged := extend _values values in
      (<[matchIndex := merged]> records, results_ ++ [merged])
  | None => st
  end.

(** The part of [update] after the uniqueness checks. *)
Definition update_apply (db : Database) (collectionName : string)
    (indicies_ : list nat) (values : record) : result (list record) * Database :=
  match indicies_, data db !! collectionName with
  | [], _ => (Done [], writeQueue_push db collectionName)
  | _ :: _, None => (TypeError, db)
  | _ :: _, Some records =>
      let '(records', results_) :=
        foldl (update_match values) (records, []) indicies_ in
      (Done results_,
       writeQueue_push
         (set_data db (<[collectionName := records']> (data db)))
         collectionName)
  end.

(** [update(collectionName, options, values, cb)].  The call of [_.where]
    raises a [TypeError] in a library that has no such member, as the one of
    the package file: nothing after it is reached.  In a library that has it,
    reading [self.schema[collectionName][attrName]] raises a [TypeError]
    when the collection has no schema and [values] has a key; so does
    reading an attribute of the matched record when there is none at the
    position. *)
Definition update (db : Database) (collectionName : string) (options : criteria)
    (values : record) : result (list record) * Database :=
  if noFilePath db then (Fail NoFilePath, db) else
  let resultSet_ := waterlineCriteria collectionName (data db) options in
  match Lodash.where_ with
  | None => (TypeError, db)
  | Some where_ =>
  match schema db !! collectionName, keys values with
  | None, _ :: _ => (TypeError, db)
  | schema_, _ =>
      let uniqueAttrs :=
        where_ (keys values)
          (fun attrName =>
             match own (default [] schema_) attrName with
             | Some attributeDef => Attr.unique attributeDef
             | None => false
             end) in
      if bool_decide (length uniqueAttrs ≠ 0%nat)
         && bool_decide (length (indicies resultSet_) ≠ 0%nat)
      then
        if bool_decide (1 < length (indicies resultSet_))%nat
        then (Fail (UniquenessAttributes uniqueAttrs), db)
        else
          match data db !! collectionName with
          | None => (TypeError, db)
          | Some records =>
              match records !! (List.nth 0 (indicies resultSet_) 0%nat) with
              | None => (TypeError, db)
              | Some result_ =>
                  let errors := update_check result_ values uniqueAttrs in
                  if bool_decide (length errors ≠ 0%nat)
                  then (FailAll errors, db)
                  else update_apply db collectionName (indicies resultSet_) values
              end
          end
      else update_apply db collectionName (indicies resultSet_) values
  end
  end.

(** [destroy(collectionName, options, cb)].  The predicate handed to
    [_.reject] calls [_.contains], which raises a [TypeError] in a library
    that has no such member: it escapes [destroy] as soon as the collection
    holds a record, before the assignment to [this.data[collectionName]]. *)
Definition destroy (db : Database) (collectionName : string) (options : criteria)
    : result unit * Database :=
  if noFilePath db then (Fail NoFilePath, db) else
  let resultSet_ := waterlineCriteria collectionName (data db) options in
  match Lodash.reject
          (fun (model : record) i =>
             (fun contains => contains (indicies resultSet_) i) <$> Lodash.contains)
          0 (default [] (data db !! collectionName)) with
  | None => (TypeError, db)
  | Some models =>
      (Done tt,
       writeQueue_push
         (set_data db (<[collectionName := models]> (data db)))
         collectionName)
  end.

(** *** Persistence *)

(** The state of the whole engine. *)
Definition engineState (db : Database) : EngineState :=
  {| st_data := data db; st_schema := schema db; st_counters := counters db |}.

(** [write(collectionName, cb)]: the file is made sure of, then the object
    [{ data: data, schema: schema, counters: counters }] is put out. *)
Definition write (db : Database) (collectionName : string) (disk : Disk)
    : result unit * Disk :=
  if noFilePath db then (Fail NoFilePath, disk) else
  match fs_createFile disk (filePath db) with
  | inl err => (Fail err, disk)
  | inr disk1 =>
      match fs_outputJson disk1 (filePath db)
              (JSON_stringify_state (engineState db)) with
      | inl err => (Fail err, disk1)
      | inr disk2 => (Done tt, disk2)
      end
  end.

(** The worker of [writeQueue], once: the oldest task is taken off the queue
    and [write] runs for it on the state of that moment. *)
Definition writeQueue_worker (db : Database) (disk : Disk)
    : option (result unit) * Database * Disk :=
  match writeQueue db with
  | [] => (None, db, disk)
  | collectionName :: rest =>
      let '(r, disk1) := write db collectionName disk in
      (Some r,
       {| filePath := filePath db; collections := collections db;
          data := data db; counters := counters db; schema := schema db;
          writeQueue := rest |},
       disk1)
  end.

(** What [read] hands to its callback: the state found on disk, or the
    object [{ data: self.data, schema: self.schema, counters: self.schema }]
    of the branch for a state that is in memory already. *)
Inductive loaded : Type :=
| FromDisk (state : EngineState)
| FromMemory (data_ : gmap string (list record)) (schema_ : gmap string schemaT).

(** [read(cb)] *)
Definition read (db : Database) (disk : Disk) : result loaded * Database * Disk :=
  if noFilePath db then (Fail NoFilePath, db, disk) else
  let exists_ := fs_exists disk (filePath db) in
  let db1 := set_data db ∅ in
  if negb exists_ then
    match fs_createFile disk (filePath db1) with
    | inl err => (Fail err, db1, disk)
    | inr disk1 => (Done (FromDisk emptyState), db1, disk1)
    end
  else if bool_decide (size (data db1) ≠ 0%nat)
  then (Done (FromMemory (data db1) (schema db1)), db1, disk)
  else
    match fs_readFile disk (filePath db1) with
    | inl err => (Fail err, db1, disk)
    | inr text =>
        if String.eqb text "" then (Done (FromDisk emptyState), db1, disk)
        else
          match JSON_parse_state text with
          | Thrown => (Fail (SyntaxError text), db1, disk)
          | ParsedNull =>
              (* self.data = state.data, on null *)
              (TypeError, db1, disk)
          | Parsed state =>
              (Done (FromDisk state),
               {| filePath := filePath db1; collections := collections db1;
                  data := st_data state; counters := st_counters state;
                  schema := st_schema state; writeQueue := writeQueue db1 |},
               disk)
          end
    end.

(** What [dropCollection] does with an error: without a file path it
    returns the object [{ error }] and never calls back. *)
Inductive dropped : Type :=
| Returned (e : error)
| CalledBack (r : result unit).

(** [dropCollection(collectionName, relations, cb)]; called without
    [relations], these are the empty array. *)
Definition dropCollection (db : Database) (collectionName : string)
    (relations : list string) (disk : Disk) : dropped * Database * Disk :=
  if noFilePath db then (Returned NoFilePath, db, disk) else
  let db1 := set_data db (delete collectionName (data db)) in
  let db2 := set_schema db1 (delete collectionName (schema db1)) in
  let db3 :=
    foldl (fun db_ relation =>
             set_schema (set_data db_ (delete relation (data db_)))
                        (delete relation (schema db_)))
          db2 relations in
  let '(r, disk1) := write db3 collectionName disk in
  (CalledBack r, db3, disk1).

(** *** Initialization *)

(** [async.eachSeries] over the configured collections: the first error
    ends the series. *)
Fixpoint registerAll (db : Database) (colls : obj collectionDef)
    : result unit * Database :=
  match colls with
  | [] => (Done tt, db)
  | (key, collection) :: rest =>
      match registerCollection db key collection with
      | (Done _, db1) => registerAll db1 rest
      | (Fail e, db1) => (Fail e, db1)
      | (FailAll es, db1) => (FailAll es, db1)
      | (TypeError, db1) => (TypeError, db1)
      end
  end.

(** [initialize(cb)].  An error of [checkData] ends [async.auto], which
    hands it to [cb].  The task [setCollection] depends on [checkData]:
    [async.auto] calls it with the results and the callback, so that its
    one parameter [next] is the results object and the callback is out of
    its reach.  [async.eachSeries], handed an object for a callback, runs
    the series and returns a promise; the callback of the task is never
    called, and neither is [cb]. *)
Definition initialize (db : Database) (disk : Disk)
    : outcome unit * Database * Disk :=
  let '(checkData, db1, disk1) :=
    if bool_decide (0 < size (data db))%nat
    then (Done tt, db, disk)
    else match read db disk with
         | (Done _, db1, disk1) => (Done tt, db1, disk1)
         | (Fail e, db1, disk1) => (Fail e, db1, disk1)
         | (FailAll es, db1, disk1) => (FailAll es, db1, disk1)
         | (TypeError, db1, disk1) => (TypeError, db1, disk1)
         end in
  match checkData with
  | Done _ =>
      let '(_, db2) := registerAll db1 (collections db1) in
      (NeverCalledBack, db2, disk1)
  | _ => (Ended checkData, db1, disk1)
  end.

(** *** The statements of the specification, as definitions *)

(** [checkUniqueness] in the words of the specification: for every unique
    attribute present in the candidate with a non-absent value, every
    existing record sharing that value is a violation. *)
Definition checkUniqueness (schema_ : schemaT) (records : list record)
    (candidate : record) : list error :=
  flat_map
    (fun attr : string * attrDef =>
       if Attr.unique attr.2 && negb (isUndefined (prop candidate attr.1))
       then List.map (fun _ => UniquenessValue attr.1 (prop candidate attr.1))
              (List.filter
                 (fun r => strict_eq (prop candidate attr.1) (prop r attr.1))
                 records)
       else [])
    schema_.

(** The last value issued by the counter of an attribute; a counter that is
    not set counts as 0, as [autoIncrement] has it. *)
Definition counter (db : Database) (collectionName attrName : string) : Z :=
  default 0%Z (counters db !! collectionName ≫= lookup attrName).



Definition accepted {A} (r : result A) : Prop :=
  match r with Done _ => True | _ => False end.

(** The operations on a running engine, and one of them on the engine and
    its disk.  [initialize], which loads the state, is not one of them. *)
Inductive operation : Type :=
| RegisterCollection (collectionName : string) (collection : collectionDef)
| Describe (collectionName : string)
| CreateCollection (collectionName : string) (definition : option schemaT)
| DropCollection (collectionName : string) (relations : list string)
| Select (collectionName : string) (options : criteria)
| Insert (collectionName : string) (values : record)
| Update (collectionName : string) (options : criteria) (values : record)
| Destroy (collectionName : string) (options : criteria)
| WriteQueueWorker.

Definition run (op : operation) (db : Database) (disk : Disk) : Database * Disk :=
  match op with
  | RegisterCollection c collection => ((registerCollection db c collection).2, disk)
  | Describe c => (db, disk)
  | CreateCollection c definition => ((createCollection db c definition).2, disk)
  | DropCollection c relations =>
      let '(_, db1, disk1) := dropCollection db c relations disk in (db1, disk1)
  | Select c options => (db, disk)
  | Insert c values => ((insert db c values).2, disk)
  | Update c options values => ((update db c options values).2, disk)
  | Destroy c options => ((destroy db c options).2, disk)
  | WriteQueueWorker =>
      let '(_, db1, disk1) := writeQueue_worker db disk in (db1, disk1)
  end.

(** What [serializeValues] leaves under a key: for an attribute of type
    [json] the parsed value, or the raw value when [JSON.parse] throws; the
    raw value for every other key. *)
Definition coerced (schema_ : schemaT) (values : record) (key : string) : value :=
  match own schema_ key with
  | Some attrDef_ =>
      if bool_decide (Attr.type attrDef_ = Some "json")
      then default (prop values key) (JSON_parse (prop values key))
      else prop values key
  | None => prop values key
  end.

(** An operation that registers the name. *)
Definition registers (op : operation) (name : string) : Prop :=
  match op with
  | RegisterCollection c _ | CreateCollection c _ => c = name
  | _ => False
  end.

(** Operations one after the other. *)
Definition runAll (ops : list operation) (db : Database) (disk : Disk)
    : Database * Disk :=
  foldl (fun st op => run op st.1 st.2) (db, disk) ops.

(** A collection that [setCollection] has registered with the schema
    [schema_], on an engine with a file path. *)
Definition registered (db : Database) (collectionName : string)
    (schema_ : schemaT) : Prop :=
  noFilePath db = false
  ∧ schema db !! collectionName = Some schema_
  ∧ is_Some (data db !! collectionName)
  ∧ is_Some (counters db !! collectionName).


(** The values that the records hold under an attribute, the absent ones
    left out; and the invariant of the unique attributes: no such value is
    held twice. *)
Definition held (attrName : string) (records : list record) : list value :=
  List.filter (fun v => negb (isUndefined v))
    (List.map (fun r => prop r attrName) records).

Definition unique_inv (schema_ : schemaT) (records : list record) : Prop :=
  ∀ attrName attrDef_,
    (attrName, attrDef_) ∈ schema_ →
    Attr.unique attrDef_ = true →
    NoDup (held attrName records).

(** The worker of the write queue, [n] times; and until the queue that it
    found is empty. *)
Fixpoint drain (n : nat) (db : Database) (disk : Disk) : Database * Disk :=
  match n with
  | O => (db, disk)
  | S n' =>
      let '(_, db1, disk1) := writeQueue_worker db disk in
      drain n' db1 disk1
  end.

Definition drainAll (db : Database) (disk : Disk) : Database * Disk :=
  drain (length (writeQueue db)) db disk.

(** ** Properties *)

(** *** Property lists *)

Lemma own_assign_eq {A} (o : obj A) k v : own (assign o k v) k = Some v.
Proof.
  induction o as [|[k' v'] o IH]; simpl.
  - by rewrite String.eqb_refl.
  - destruct (String.eqb k k') eqn:E; simpl; rewrite E; [done | exact IH].
Qed.

Lemma own_assign_ne {A} (o : obj A) k k' v :
  k ≠ k' → own (assign o k v) k' = own o k'.
Proof.
  intros Hne. induction o as [|[k0 v0] o IH]; simpl.
  - destruct (String.eqb k' k) eqn:E; [|done].
    apply String.eqb_eq in E. congruence.
  - destruct (String.eqb k k0) eqn:E; simpl.
    + apply String.eqb_eq in E. subst k0.
      destruct (String.eqb k' k) eqn:E'; [|done].
      apply String.eqb_eq in E'. congruence.
    + by rewrite IH.
Qed.

Lemma prop_assign_eq (r : record) k v : prop (assign r k v) k = v.
Proof. unfold prop. by rewrite own_assign_eq. Qed.

Lemma prop_assign_ne (r : record) k k' v :
  k ≠ k' → prop (assign r k v) k' = prop r k'.
Proof. intros. unfold prop. by rewrite own_assign_ne. Qed.

Lemma isUndefined_false v : v ≠ VUndefined → isUndefined v = false.
Proof. by destruct v. Qed.

(** *** Numbers *)

Lemma js_succ_exact n : (- 2 ^ 53 ≤ n < 2 ^ 53)%Z → js_succ n = (n + 1)%Z.
Proof.
  intros Hn. unfold js_succ, round_double. cbv zeta.
  change (2 ^ 53)%Z with 9007199254740992%Z in *.
  destruct (Z.leb_spec (Z.abs (n + 1)) 9007199254740992); [done | lia].
Qed.



(** *** Uniqueness on insert *)

Lemma uniqueConstraint_records_app values attrName errors records :
  uniqueConstraint_records values attrName errors records
  = errors ++
    (if isUndefined (prop values attrName) then []
     else List.map (fun _ => UniquenessValue attrName (prop values attrName))
            (List.filter
               (fun r => strict_eq (prop values attrName) (prop r attrName))
               records)).
Proof.
  unfold uniqueConstraint_records.
  revert errors. induction records as [|r records IH]; intros errors; simpl.
  - destruct (isUndefined _); by rewrite app_nil_r.
  - rewrite IH. destruct (isUndefined (prop values attrName)); [done|].
    destruct (strict_eq _ _); simpl; [|done].
    by rewrite <- app_assoc.
Qed.

Lemma uniqueConstraint_loop values records schema_ errors :
  foldl (fun errors (attr : string * attrDef) =>
           let '(attrName, attrDef_) := attr in
           if negb (Attr.unique attrDef_) then errors
           else uniqueConstraint_records values attrName errors records)
        errors schema_
  = errors ++ checkUniqueness schema_ records values.
Proof.
  revert errors.
  induction schema_ as [|[attrName attrDef_] schema_ IH]; intros errors; simpl.
  - by rewrite app_nil_r.
  - rewrite IH. destruct (Attr.unique attrDef_); simpl; [|done].
    rewrite uniqueConstraint_records_app, <- app_assoc.
    by destruct (isUndefined (prop values attrName)).
Qed.

Lemma uniqueConstraint_checkUniqueness db collectionName values schema_ records :
  schema db !! collectionName = Some schema_ →
  data db !! collectionName = Some records →
  uniqueConstraint db collectionName values
  = checkUniqueness schema_ records values.
Proof.
  intros Hs Hd. unfold uniqueConstraint. rewrite Hs, Hd. simpl.
  by rewrite uniqueConstraint_loop.
Qed.

(** The violations are the collisions, and nothing else. *)
Lemma checkUniqueness_elem schema_ records candidate e :
  e ∈ checkUniqueness schema_ records candidate
  ↔ ∃ attrName attrDef_ r,
      (attrName, attrDef_) ∈ schema_
      ∧ Attr.unique attrDef_ = true
      ∧ r ∈ records
      ∧ prop candidate attrName ≠ VUndefined
      ∧ prop r attrName = prop candidate attrName
      ∧ e = UniquenessValue attrName (prop candidate attrName).
Proof.
  unfold checkUniqueness. rewrite list_elem_of_In, in_flat_map. split.
  - intros ([attrName attrDef_] & Ha & He). simpl in He.
    destruct (Attr.unique attrDef_) eqn:Hu; simpl in He; [|done].
    destruct (isUndefined (prop candidate attrName)) eqn:Hv; simpl in He; [done|].
    apply in_map_iff in He as (r & <- & Hr).
    apply filter_In in Hr as [Hr Heq].
    exists attrName, attrDef_, r.
    split; [by apply list_elem_of_In|]. split; [done|].
    split; [by apply list_elem_of_In|]. split.
    + intros Hundef. by rewrite Hundef in Hv.
    + split; [|done]. unfold strict_eq in Heq.
      by apply bool_decide_eq_true in Heq.
  - intros (attrName & attrDef_ & r & Ha & Hu & Hr & Hv & Heq & ->).
    exists (attrName, attrDef_).
    split; [by apply list_elem_of_In|]. simpl. rewrite Hu.
    rewrite (isUndefined_false _ Hv). simpl.
    apply in_map_iff. exists r. split; [done|].
    apply filter_In. split; [by apply list_elem_of_In|].
    unfold strict_eq. rewrite Heq. by apply bool_decide_eq_true.
Qed.

(** For one attribute, as many violations as records that collide on it. *)
Lemma checkUniqueness_one attrName attrDef_ records candidate :
  Attr.unique attrDef_ = true →
  prop candidate attrName ≠ VUndefined →
  length (checkUniqueness [(attrName, attrDef_)] records candidate)
  = length (List.filter
              (fun r => strict_eq (prop candidate attrName) (prop r attrName))
              records).
Proof.
  intros Hu Hv. unfold checkUniqueness. simpl.
  rewrite Hu, (isUndefined_false _ Hv), app_nil_r. simpl.
  by rewrite length_map.
Qed.

Lemma checkUniqueness_app schema1 schema2 records candidate :
  checkUniqueness (schema1 ++ schema2) records candidate
  = checkUniqueness schema1 records candidate
    ++ checkUniqueness schema2 records candidate.
Proof. unfold checkUniqueness. apply flat_map_app. Qed.

(** C1. On a registered collection, a candidate that carries, for a unique
    attribute, a value that an existing record holds is rejected by [insert]
    with the list of all the violations: the list that the specification
    describes, which is not empty and has one entry for each unique attribute
    and each existing record that collide, and no other.  The store is left
    as it was: the records of the collection, their number and everything
    else. *)
Theorem insert_rejects_collision db collectionName candidate schema_ records
    attrName attrDef_ r :
  noFilePath db = false →
  schema db !! collectionName = Some schema_ →
  data db !! collectionName = Some records →
  (attrName, attrDef_) ∈ schema_ →
  Attr.unique attrDef_ = true →
  r ∈ records →
  prop candidate attrName ≠ VUndefined →
  prop r attrName = prop candidate attrName →
  insert db collectionName candidate
  = (FailAll (checkUniqueness schema_ records candidate), db)
  ∧ checkUniqueness schema_ records candidate ≠ []
  ∧ (∀ e, e ∈ checkUniqueness schema_ records candidate
          ↔ ∃ a d r',
              (a, d) ∈ schema_ ∧ Attr.unique d = true ∧ r' ∈ records
              ∧ prop candidate a ≠ VUndefined
              ∧ prop r' a = prop candidate a
              ∧ e = UniquenessValue a (prop candidate a))
  ∧ data (insert db collectionName candidate).2 !! collectionName = Some records.
Proof.
  intros Hf Hs Hd Ha Hu Hr Hv Heq.
  assert (Hin : UniquenessValue attrName (prop candidate attrName)
                ∈ checkUniqueness schema_ records candidate).
  { apply checkUniqueness_elem. by exists attrName, attrDef_, r. }
  assert (Hne : checkUniqueness schema_ records candidate ≠ []).
  { intros E. rewrite E in Hin. by apply not_elem_of_nil in Hin. }
  assert (Hins : insert db collectionName candidate
                 = (FailAll (checkUniqueness schema_ records candidate), db)).
  { unfold insert. rewrite Hf.
    rewrite (uniqueConstraint_checkUniqueness _ _ _ _ _ Hs Hd).
    rewrite bool_decide_eq_true_2; [done|].
    destruct (checkUniqueness schema_ records candidate); [done | simpl; lia]. }
  split; [done|]. split; [done|]. split; [apply checkUniqueness_elem|].
  by rewrite Hins.
Qed.

(** *** Auto-increment *)

Lemma own_elem_of {A} (o : obj A) k v :
  wf_obj o → (k, v) ∈ o → own o k = Some v.
Proof.
  unfold wf_obj. induction o as [|[k' v'] o IH]; simpl; intros Hnd Hin.
  - by apply not_elem_of_nil in Hin.
  - apply NoDup_cons in Hnd as [Hk' Hnd].
    apply elem_of_cons in Hin as [Heq | Hin].
    + inversion Heq; subst. by rewrite String.eqb_refl.
    + destruct (String.eqb k k') eqn:E.
      * apply String.eqb_eq in E. subst k'. exfalso. apply Hk'.
        apply list_elem_of_fmap. by exists (k, v).
      * by apply IH.
Qed.

Lemma own_None {A} (o : obj A) k : k ∉ o.*1 → own o k = None.
Proof.
  induction o as [|[k' v'] o IH]; simpl; intros Hk; [done|].
  apply not_elem_of_cons in Hk as [Hne Hk].
  destruct (String.eqb k k') eqn:E; [|by apply IH].
  apply String.eqb_eq in E. congruence.
Qed.

(** One turn of the loop: the counter of the attribute goes on from its
    value, or from 0 when it is not set, and the new value is assigned. *)
Lemma autoIncrement_attr_eq counters_ values attrName attrDef_ :
  autoIncrement_attr (counters_, values) (attrName, attrDef_)
  = if Attr.autoIncrement attrDef_ && negb (truthy (prop values attrName))
    then let c := js_succ (default 0%Z (counters_ !! attrName)) in
         (<[attrName := c]> counters_, assign values attrName (VNum c))
    else (counters_, values).
Proof.
  unfold autoIncrement_attr.
  destruct (Attr.autoIncrement attrDef_); simpl; [|done].
  destruct (truthy (prop values attrName)); simpl; [done|].
  destruct (counters_ !! attrName) as [c|] eqn:E; simpl.
  - destruct (c =? 0)%Z eqn:E0.
    + apply Z.eqb_eq in E0. subst c.
      by rewrite lookup_insert_eq, insert_insert_eq.
    + by rewrite E.
  - by rewrite lookup_insert_eq, insert_insert_eq.
Qed.

Lemma foldl_step {A B} (f : A → B → A) a x l :
  foldl f a (x :: l) = foldl f (f a x) l.
Proof. reflexivity. Qed.

(** The loop, attribute by attribute. *)
Lemma autoIncrement_loop schema_ counters_ values attrName :
  wf_obj schema_ →
  if match own schema_ attrName with
     | Some attrDef_ =>
         Attr.autoIncrement attrDef_ && negb (truthy (prop values attrName))
     | None => false
     end
  then (foldl autoIncrement_attr (counters_, values) schema_).1 !! attrName
       = Some (js_succ (default 0%Z (counters_ !! attrName)))
       ∧ prop (foldl autoIncrement_attr (counters_, values) schema_).2 attrName
         = VNum (js_succ (default 0%Z (counters_ !! attrName)))
  else (foldl autoIncrement_attr (counters_, values) schema_).1 !! attrName
       = counters_ !! attrName
       ∧ prop (foldl autoIncrement_attr (counters_, values) schema_).2 attrName
         = prop values attrName.
Proof.
  unfold wf_obj. revert counters_ values.
  induction schema_ as [|[k d] schema_ IH]; intros counters_ values Hnd;
    [done|].
  apply NoDup_cons in Hnd as [Hk Hnd]. simpl in Hk.
  rewrite !foldl_step, autoIncrement_attr_eq. cbn [own].
  destruct (String.eqb attrName k) eqn:E.
  - apply String.eqb_eq in E. subst k.
    destruct (Attr.autoIncrement d && negb (truthy (prop values attrName))).
    + specialize (IH (<[attrName := js_succ (default 0%Z (counters_ !! attrName))]> counters_)
                     (assign values attrName
                        (VNum (js_succ (default 0%Z (counters_ !! attrName)))))
                     Hnd).
      rewrite (own_None _ _ Hk) in IH. destruct IH as [IH1 IH2].
      cbv zeta. rewrite IH1, IH2.
      by rewrite lookup_insert_eq, prop_assign_eq.
    + specialize (IH counters_ values Hnd).
      by rewrite (own_None _ _ Hk) in IH.
  - apply String.eqb_neq in E.
    destruct (Attr.autoIncrement d && negb (truthy (prop values k))).
    + specialize (IH (<[k := js_succ (default 0%Z (counters_ !! k))]> counters_)
                     (assign values k (VNum (js_succ (default 0%Z (counters_ !! k)))))
                     Hnd).
      rewrite lookup_insert_ne, prop_assign_ne in IH by congruence. exact IH.
    + by apply IH.
Qed.


(** [autoIncrement] on a collection that has counters: it returns, and what
    it does to an attribute depends on the candidate's value for it. *)
Lemma autoIncrement_registered db collectionName values schema_ counters_ :
  schema db !! collectionName = Some schema_ →
  counters db !! collectionName = Some counters_ →
  autoIncrement db collectionName values
  = (Done (foldl autoIncrement_attr (counters_, values) schema_).2,
     set_counters db
       (<[collectionName := (foldl autoIncrement_attr (counters_, values) schema_).1]>
          (counters db))).
Proof.
  intros Hs Hc. unfold autoIncrement. rewrite Hs, Hc. simpl.
  by destruct (foldl autoIncrement_attr (counters_, values) schema_).
Qed.

(** *** Coercion *)

Lemma keys_assign_elem {A} (o : obj A) k v :
  k ∈ keys o → keys (assign o k v) = keys o.
Proof.
  unfold keys. induction o as [|[k' v'] o IH]; intros Hin.
  - by apply not_elem_of_nil in Hin.
  - cbn [assign]. destruct (String.eqb k k') eqn:E; [done|].
    rewrite !fmap_cons. f_equal. apply IH.
    rewrite fmap_cons in Hin. apply elem_of_cons in Hin as [Heq|Hin]; [|done].
    simpl in Heq. subst k'. by rewrite String.eqb_refl in E.
Qed.

Lemma serializeValues_key_prop db collectionName schema_ values key k :
  schema db !! collectionName = Some schema_ →
  prop (serializeValues_key db collectionName values key) k
  = if decide (k = key) then coerced schema_ values key else prop values k.
Proof.
  intros Hs. unfold serializeValues_key, coerced. rewrite Hs.
  destruct (decide (k = key)) as [->|Hne].
  - destruct (own schema_ key) as [d|]; [|done].
    destruct (bool_decide (Attr.type d = Some "json")); [|done].
    destruct (JSON_parse (prop values key)); simpl; [|done].
    by rewrite prop_assign_eq.
  - destruct (own schema_ key) as [d|]; [|done].
    destruct (bool_decide (Attr.type d = Some "json")); [|done].
    destruct (JSON_parse (prop values key)); simpl; [|done].
    by rewrite prop_assign_ne.
Qed.

Lemma serializeValues_key_keys db collectionName values key :
  key ∈ keys values →
  keys (serializeValues_key db collectionName values key) = keys values.
Proof.
  intros Hin. unfold serializeValues_key.
  destruct (schema db !! collectionName) as [schema_|]; [|done].
  destruct (own schema_ key) as [d|]; [|done].
  destruct (bool_decide (Attr.type d = Some "json")); [|done].
  destruct (JSON_parse (prop values key)); [|done].
  by apply keys_assign_elem.
Qed.

Lemma coerced_ext schema_ values values' key :
  prop values' key = prop values key →
  coerced schema_ values' key = coerced schema_ values key.
Proof. intros E. unfold coerced. by rewrite E. Qed.

Lemma serializeValues_loop db collectionName schema_ values ks k :
  schema db !! collectionName = Some schema_ →
  NoDup ks →
  prop (foldl (serializeValues_key db collectionName) values ks) k
  = if decide (k ∈ ks) then coerced schema_ values k else prop values k.
Proof.
  intros Hs. revert values.
  induction ks as [|key ks IH]; intros values Hnd; [done|].
  apply NoDup_cons in Hnd as [Hkey Hnd].
  rewrite foldl_step, IH by done.
  rewrite (serializeValues_key_prop _ _ _ _ _ _ Hs).
  destruct (decide (k = key)) as [->|Hne].
  - rewrite decide_False by done.
    rewrite decide_True by (by left). done.
  - destruct (decide (k ∈ ks)) as [Hin|Hin].
    + rewrite decide_True by (by right).
      apply coerced_ext. rewrite (serializeValues_key_prop _ _ _ _ _ _ Hs).
      by rewrite decide_False.
    + rewrite decide_False; [done|].
      intros [?|?]%elem_of_cons; done.
Qed.

Lemma serializeValues_loop_keys db collectionName values ks :
  (∀ key, key ∈ ks → key ∈ keys values) →
  keys (foldl (serializeValues_key db collectionName) values ks) = keys values.
Proof.
  revert values. induction ks as [|key ks IH]; intros values Hks; [done|].
  rewrite foldl_step, IH.
  - apply serializeValues_key_keys, Hks. by left.
  - intros key' Hin. rewrite serializeValues_key_keys by (apply Hks; by left).
    apply Hks. by right.
Qed.

(** [serializeValues] on a record: the keys stay, and under each of them
    lies the coerced value. *)
Lemma serializeValues_coerced db collectionName schema_ values :
  schema db !! collectionName = Some schema_ →
  wf_obj values →
  keys (serializeValues db collectionName values) = keys values
  ∧ ∀ key, prop (serializeValues db collectionName values) key
           = if decide (key ∈ keys values) then coerced schema_ values key
             else VUndefined.
Proof.
  intros Hs Hwf. unfold serializeValues. split.
  - by apply serializeValues_loop_keys.
  - intros key. rewrite (serializeValues_loop _ _ _ _ _ _ Hs Hwf).
    unfold keys. destruct (decide (key ∈ values.*1)) as [Hin|Hin]; [done|].
    unfold prop. by rewrite (own_None _ _ Hin).
Qed.

Lemma keys_assign_new {A} (o : obj A) k v :
  k ∉ keys o → keys (assign o k v) = keys o ++ [k].
Proof.
  unfold keys. induction o as [|[k' v'] o IH]; intros Hin; [done|].
  rewrite fmap_cons in Hin. apply not_elem_of_cons in Hin as [Hne Hin].
  cbn [assign]. destruct (String.eqb k k') eqn:E.
  - apply String.eqb_eq in E. done.
  - rewrite !fmap_cons. simpl. f_equal. by apply IH.
Qed.

Lemma wf_assign {A} (o : obj A) k v : wf_obj o → wf_obj (assign o k v).
Proof.
  unfold wf_obj. intros Hwf. destruct (decide (k ∈ keys o)) as [Hin|Hin].
  - fold (keys (assign o k v)). by rewrite keys_assign_elem.
  - fold (keys (assign o k v)). rewrite keys_assign_new by done.
    apply NoDup_app. split; [done|]. split.
    + intros x Hx [->|Hx']%elem_of_cons; [done|]. by apply not_elem_of_nil in Hx'.
    + apply NoDup_singleton.
Qed.

Lemma autoIncrement_loop_wf schema_ counters_ values :
  wf_obj values →
  wf_obj (foldl autoIncrement_attr (counters_, values) schema_).2.
Proof.
  revert counters_ values.
  induction schema_ as [|[k d] schema_ IH]; intros counters_ values Hwf; [done|].
  rewrite foldl_step, autoIncrement_attr_eq.
  destruct (Attr.autoIncrement d && negb (truthy (prop values k))); [|by apply IH].
  apply IH. by apply wf_assign.
Qed.

(** [insert] into a registered collection: rejected with the violations, or
    stored after auto-increment and coercion. *)
Lemma insert_registered db collectionName values schema_ records counters_ :
  noFilePath db = false →
  schema db !! collectionName = Some schema_ →
  data db !! collectionName = Some records →
  counters db !! collectionName = Some counters_ →
  insert db collectionName values
  = if bool_decide (0 < length (uniqueConstraint db collectionName values))%nat
    then (FailAll (uniqueConstraint db collectionName values), db)
    else
      let st := foldl autoIncrement_attr (counters_, values) schema_ in
      let db1 := set_counters db (<[collectionName := st.1]> (counters db)) in
      let stored := serializeValues db1 collectionName st.2 in
      (Done stored,
       writeQueue_push
         (set_data db1 (<[collectionName := records ++ [stored]]> (data db1)))
         collectionName).
Proof.
  intros Hf Hs Hd Hc. unfold insert. rewrite Hf.
  destruct (bool_decide _); [done|].
  rewrite (autoIncrement_registered _ _ _ _ _ Hs Hc). simpl. by rewrite Hd.
Qed.

(** C8. [insert] into a registered collection, for a candidate that passes
    the uniqueness check, succeeds whatever [JSON.parse] does: the record
    stored has the keys of the record [supplied] to the coercion (the
    candidate after auto-increment); under a key whose attribute is declared
    of type [json] lies the parsed value when [JSON.parse] returns one and the
    raw value when it throws; under every other key lies the raw value. *)
Theorem insert_coerces_leniently db collectionName values schema_ records counters_ :
  noFilePath db = false →
  schema db !! collectionName = Some schema_ →
  data db !! collectionName = Some records →
  counters db !! collectionName = Some counters_ →
  wf_obj values →
  uniqueConstraint db collectionName values = [] →
  ∃ supplied db1 stored,
    autoIncrement db collectionName values = (Done supplied, db1)
    ∧ insert db collectionName values
      = (Done stored,
         writeQueue_push
           (set_data db1 (<[collectionName := records ++ [stored]]> (data db1)))
           collectionName)
    ∧ keys stored = keys supplied
    ∧ (∀ key attrDef_,
         key ∈ keys supplied →
         own schema_ key = Some attrDef_ →
         Attr.type attrDef_ = Some "json" →
         prop stored key
         = match JSON_parse (prop supplied key) with
           | Some val => val
           | None => prop supplied key
           end)
    ∧ (∀ key,
         (∀ attrDef_, own schema_ key = Some attrDef_ →
                      Attr.type attrDef_ ≠ Some "json") →
         prop stored key = prop supplied key).
Proof.
  intros Hf Hs Hd Hc Hwf Hu.
  eexists _, _, _. split; [by apply autoIncrement_registered|].
  split.
  { rewrite (insert_registered _ _ _ _ _ _ Hf Hs Hd Hc), Hu. simpl. reflexivity. }
  set (st := foldl autoIncrement_attr (counters_, values) schema_).
  set (db1 := set_counters db (<[collectionName := st.1]> (counters db))).
  assert (Hs1 : schema db1 !! collectionName = Some schema_) by done.
  assert (Hwf1 : wf_obj st.2) by by apply autoIncrement_loop_wf.
  destruct (serializeValues_coerced db1 collectionName schema_ st.2 Hs1 Hwf1)
    as [Hkeys Hprop].
  split; [done|]. split.
  - intros key d Hin Ho Hty. rewrite Hprop, decide_True by done.
    unfold coerced. rewrite Ho, bool_decide_eq_true_2 by done.
    by destruct (JSON_parse (prop st.2 key)).
  - intros key Hty. rewrite Hprop.
    destruct (decide (key ∈ keys st.2)) as [Hin|Hin].
    + unfold coerced. destruct (own schema_ key) as [d|] eqn:Ho; [|done].
      by rewrite bool_decide_eq_false_2 by by apply Hty.
    + unfold prop. by rewrite (own_None _ _ Hin).
Qed.

(** *** Sequences of inserts *)

Lemma serializeValues_number db collectionName values attrName n :
  (∀ m, JSON_parse (VNum m) = Some (VNum m)) →
  prop values attrName = VNum n →
  prop (serializeValues db collectionName values) attrName = VNum n.
Proof.
  intros HJ. unfold serializeValues. generalize (keys values) as ks.
  intros ks. revert values.
  induction ks as [|key ks IH]; intros values Hv; [done|].
  rewrite foldl_step. apply IH. unfold serializeValues_key.
  destruct (schema db !! collectionName) as [schema_|]; [|done].
  destruct (own schema_ key) as [d|]; [|done].
  destruct (bool_decide (Attr.type d = Some "json")); [|done].
  destruct (decide (key = attrName)) as [->|Hne].
  - rewrite Hv, HJ. by rewrite prop_assign_eq.
  - destruct (JSON_parse (prop values key)); [|done].
    by rewrite prop_assign_ne.
Qed.

Lemma counter_set_counters db collectionName counters_ attrName :
  counter (set_counters db (<[collectionName := counters_]> (counters db)))
          collectionName attrName
  = default 0%Z (counters_ !! attrName).
Proof. unfold counter. simpl. by rewrite lookup_insert_eq. Qed.

Lemma counter_registered db collectionName counters_ attrName :
  counters db !! collectionName = Some counters_ →
  counter db collectionName attrName = default 0%Z (counters_ !! attrName).
Proof. intros Hc. unfold counter. by rewrite Hc. Qed.

(** One insert that omits the auto-increment attribute: rejected for
    uniqueness, with the store as it was, or stored with the counter's next
    value. *)
Lemma insert_omitting db collectionName schema_ attrName attrDef_ values :
  registered db collectionName schema_ →
  wf_obj schema_ →
  (attrName, attrDef_) ∈ schema_ →
  Attr.autoIncrement attrDef_ = true →
  (∀ m, JSON_parse (VNum m) = Some (VNum m)) →
  prop values attrName = VUndefined →
  (∃ es, insert db collectionName values = (FailAll es, db))
  ∨ (∃ stored db',
       insert db collectionName values = (Done stored, db')
       ∧ prop stored attrName = VNum (js_succ (counter db collectionName attrName))
       ∧ counter db' collectionName attrName
         = js_succ (counter db collectionName attrName)
       ∧ registered db' collectionName schema_).
Proof.
  intros (Hf & Hs & [records Hd] & [counters_ Hc]) Hwf Hin Hai HJ Hv.
  rewrite (insert_registered _ _ _ _ _ _ Hf Hs Hd Hc).
  destruct (bool_decide _); [left; by eexists|].
  right. eexists _, _. split; [reflexivity|].
  pose proof (autoIncrement_loop schema_ counters_ values attrName Hwf) as L.
  rewrite (own_elem_of _ _ _ Hwf Hin), Hai, Hv in L. simpl in L.
  destruct L as [L1 L2].
  rewrite (counter_registered _ _ _ _ Hc).
  split; [by apply serializeValues_number|]. split.
  - change (counter
              (set_counters db
                 (<[collectionName :=
                      (foldl autoIncrement_attr (counters_, values) schema_).1]>
                    (counters db)))
              collectionName attrName
            = js_succ (default 0%Z (counters_ !! attrName))).
    by rewrite counter_set_counters, L1.
  - repeat split; try done.
    + cbn [data writeQueue_push set_data]. by rewrite lookup_insert_eq.
    + cbn [counters writeQueue_push set_data set_counters].
      by rewrite lookup_insert_eq.
Qed.






(** *** Update and destroy *)

(** [update] does not get past its call of [_.where]: on an engine with a
    file path it raises a [TypeError], and it leaves the engine as it was. *)
Lemma update_throws db collectionName options values :
  noFilePath db = false →
  update db collectionName options values = (TypeError, db).
Proof. intros Hf. unfold update. by rewrite Hf. Qed.

Lemma update_db db collectionName options values :
  (update db collectionName options values).2 = db.
Proof. unfold update. by destruct (noFilePath db). Qed.

(** [destroy] on a collection that holds a record raises a [TypeError] and
    leaves the engine as it was. *)
Lemma destroy_throws db collectionName options model models :
  noFilePath db = false →
  data db !! collectionName = Some (model :: models) →
  destroy db collectionName options = (TypeError, db).
Proof. intros Hf Hd. unfold destroy. by rewrite Hf, Hd. Qed.

(** [destroy] on a collection that is missing or empty leaves the empty
    array under the name and asks for a write. *)
Lemma destroy_empty db collectionName options :
  noFilePath db = false →
  default [] (data db !! collectionName) = [] →
  destroy db collectionName options
  = (Done tt,
     writeQueue_push (set_data db (<[collectionName := []]> (data db)))
       collectionName).
Proof. intros Hf Hd. unfold destroy. by rewrite Hf, Hd. Qed.

(** What [destroy] leaves of the engine: all of it, or an empty array where
    none or an empty one was, and a task on the write queue. *)
Lemma destroy_db db collectionName options :
  (destroy db collectionName options).2 = db
  ∨ (default [] (data db !! collectionName) = []
     ∧ (destroy db collectionName options).2
       = writeQueue_push (set_data db (<[collectionName := []]> (data db)))
           collectionName).
Proof.
  unfold destroy. destruct (noFilePath db); [by left|].
  destruct (default [] (data db !! collectionName)) as [|model models] eqn:Hd.
  - right. done.
  - left. done.
Qed.

(** *** The counters across the operations *)









(** *** Describe *)

(** C10. On an engine with a file path, [describe] of a name that the store
    has no schema for, or whose schema has no attribute, succeeds with the
    null schema; a name that the store holds nothing for reads, through
    [getCollection], as empty data, schema and counters; and on any engine
    [describe] either succeeds or fails with the error of the missing file
    path, which it does exactly when there is no file path. *)
Theorem describe_unknown db collectionName :
  noFilePath db = false →
  schema db !! collectionName = None ∨ schema db !! collectionName = Some [] →
  describe db collectionName = Done None
  ∧ (data db !! collectionName = None →
     schema db !! collectionName = None →
     counters db !! collectionName = None →
     getCollection db collectionName
     = Done {| c_data := []; c_schema := []; c_counters := ∅ |})
  ∧ (∀ db' name,
       (noFilePath db' = false ∧ ∃ s, describe db' name = Done s)
       ∨ (noFilePath db' = true ∧ describe db' name = Fail NoFilePath)).
Proof.
  intros Hf Hs. split; [|split].
  - unfold describe, getCollection. rewrite Hf.
    by destruct Hs as [-> | ->].
  - intros Hd Hs' Hc. unfold getCollection. by rewrite Hf, Hd, Hs', Hc.
  - intros db' name. unfold describe, getCollection.
    destruct (noFilePath db'); [right; done | left].
    split; [done|]. by eexists.
Qed.

(** *** Persistence *)

(** [write] never looks at the name it is given. *)
Lemma write_ignores_name db collectionName collectionName' disk :
  write db collectionName disk = write db collectionName' disk.
Proof. reflexivity. Qed.

(** C5. A write puts the text of the whole state, the data, the schema and
    the counters of every collection, into the one configured file and
    touches no other file; what it does is the same whichever collection
    name it is called for, and so is what the worker of the write queue does
    for a task. *)
Theorem write_whole_state db collectionName collectionName' disk :
  noFilePath db = false →
  filePath db ∉ denied disk →
  write db collectionName disk
  = (Done tt,
     {| files :=
          <[filePath db :=
              JSON_stringify_state
                {| st_data := data db; st_schema := schema db;
                   st_counters := counters db |}]> (files disk);
        denied := denied disk |})
  ∧ write db collectionName disk = write db collectionName' disk
  ∧ (∀ rest,
       writeQueue db = collectionName :: rest →
       (writeQueue_worker db disk).2 = (write db collectionName' disk).2).
Proof.
  intros Hf Hd.
  assert (E : ∀ c, write db c disk
                   = (Done tt,
                      {| files :=
                           <[filePath db := JSON_stringify_state (engineState db)]>
                             (files disk);
                         denied := denied disk |})).
  { intros c. unfold write, fs_createFile, fs_outputJson. rewrite Hf.
    rewrite bool_decide_eq_false_2 by done.
    destruct (fs_exists disk (filePath db)); simpl;
      rewrite bool_decide_eq_false_2 by done; [done|].
    by rewrite insert_insert_eq. }
  split; [apply E|]. split; [by rewrite !E|].
  intros rest Hq. unfold writeQueue_worker. rewrite Hq, !E. done.
Qed.

(** *** Dropping collections *)

Lemma dropCollection_relations db relations :
  let db' :=
    foldl (fun db_ relation =>
             set_schema (set_data db_ (delete relation (data db_)))
                        (delete relation (schema db_)))
          db relations in
  (∀ name, data db' !! name
           = if decide (name ∈ relations) then None else data db !! name)
  ∧ (∀ name, schema db' !! name
             = if decide (name ∈ relations) then None else schema db !! name)
  ∧ counters db' = counters db
  ∧ filePath db' = filePath db
  ∧ collections db' = collections db
  ∧ writeQueue db' = writeQueue db.
Proof.
  revert db. induction relations as [|relation relations IH]; intros db.
  - cbv zeta. simpl.
    repeat split; intros name; rewrite decide_False; try done;
      apply not_elem_of_nil.
  - cbv zeta. rewrite foldl_step.
    destruct (IH (set_schema (set_data db (delete relation (data db)))
                             (delete relation (schema db))))
      as (I1 & I2 & I3 & I4 & I5 & I6).
    repeat split; try done.
    + intros name. rewrite I1. simpl.
      destruct (decide (name ∈ relations)) as [Hin|Hin].
      * rewrite decide_True by (by right). done.
      * destruct (decide (name = relation)) as [->|Hne].
        -- rewrite decide_True by (by left). by rewrite lookup_delete_eq.
        -- rewrite decide_False by (by intros [?|?]%elem_of_cons).
           by rewrite lookup_delete_ne.
    + intros name. rewrite I2. simpl.
      destruct (decide (name ∈ relations)) as [Hin|Hin].
      * rewrite decide_True by (by right). done.
      * destruct (decide (name = relation)) as [->|Hne].
        -- rewrite decide_True by (by left). by rewrite lookup_delete_eq.
        -- rewrite decide_False by (by intros [?|?]%elem_of_cons).
           by rewrite lookup_delete_ne.
Qed.

(** C6, amended.  On an engine with a file path, [dropCollection] removes
    the data and the schema of the named collection and of each related one,
    leaves the data and the schema of every other collection as they were,
    and leaves all the counters as they were, those of the dropped
    collections too; it then writes the state and calls back with the
    outcome of that write. *)
Theorem dropCollection_keeps_counters db collectionName relations disk :
  noFilePath db = false →
  let db' := (dropCollection db collectionName relations disk).1.2 in
  (∀ name, name ∈ collectionName :: relations →
           data db' !! name = None ∧ schema db' !! name = None)
  ∧ (∀ name, name ∉ collectionName :: relations →
             data db' !! name = data db !! name
             ∧ schema db' !! name = schema db !! name)
  ∧ counters db' = counters db
  ∧ writeQueue db' = writeQueue db
  ∧ dropCollection db collectionName relations disk
    = (CalledBack (write db' collectionName disk).1, db',
       (write db' collectionName disk).2).
Proof.
  intros Hf. cbv zeta. unfold dropCollection. rewrite Hf.
  set (db2 := set_schema (set_data db (delete collectionName (data db)))
                         (delete collectionName (schema (set_data db _)))).
  destruct (dropCollection_relations db2 relations)
    as (I1 & I2 & I3 & I4 & I5 & I6).
  set (db3 := foldl _ db2 relations) in *.
  destruct (write db3 collectionName disk) as [r disk1] eqn:Hw.
  cbn [fst snd]. split; [|split; [|split; [|split]]].
  - intros name Hin. rewrite I1, I2.
    destruct (decide (name ∈ relations)) as [|Hnin]; [done|].
    apply elem_of_cons in Hin as [->|]; [|done].
    simpl. by rewrite !lookup_delete_eq.
  - intros name Hnin. rewrite I1, I2.
    apply not_elem_of_cons in Hnin as [Hne Hnin].
    rewrite !decide_False by done. simpl. by rewrite !lookup_delete_ne.
  - by rewrite I3.
  - by rewrite I6.
  - by rewrite Hw.
Qed.

(** *** Reading the file *)

(** C4, amended.  On an engine with a file path and a file system that
    lets it at its file, [read] first empties the data in memory and then:
    creates the file, empty, when there is none, and hands back the empty
    state; hands back the empty state, without decoding, when the file is
    empty; and when the file is not empty and its text does not decode,
    hands back the decoding error and no state, with the schema and the
    counters in memory as they were.  For an engine whose data is empty, as
    it is when [initialize] calls [read], nothing in memory has changed
    then. *)
Theorem read_missing_empty_or_corrupt db disk :
  noFilePath db = false →
  filePath db ∉ denied disk →
  (files disk !! filePath db = None →
   read db disk
   = (Done (FromDisk emptyState), set_data db ∅,
      {| files := <[filePath db := ""]> (files disk); denied := denied disk |}))
  ∧ (files disk !! filePath db = Some "" →
     read db disk = (Done (FromDisk emptyState), set_data db ∅, disk))
  ∧ (∀ text,
       files disk !! filePath db = Some text →
       text ≠ "" →
       JSON_parse_state text = Thrown →
       read db disk = (Fail (SyntaxError text), set_data db ∅, disk)
       ∧ schema (read db disk).1.2 = schema db
       ∧ counters (read db disk).1.2 = counters db
       ∧ (data db = ∅ → (read db disk).1.2 = db)).
Proof.
  intros Hf Hd. split; [|split].
  - intros Hnone. unfold read, fs_exists, fs_createFile. rewrite Hf.
    cbn [filePath set_data]. unfold fs_exists. rewrite Hnone.
    rewrite (bool_decide_eq_false_2 (is_Some None)) by (by intros [? ?]).
    cbn [negb]. by rewrite bool_decide_eq_false_2 by done.
  - intros Hsome. unfold read, fs_exists, fs_readFile. rewrite Hf.
    cbn [filePath set_data data]. rewrite Hsome.
    rewrite (bool_decide_eq_true_2 (is_Some (Some _))) by by eexists.
    cbn [negb]. rewrite map_size_empty.
    rewrite (bool_decide_eq_false_2 (0 ≠ 0)%nat) by lia.
    by rewrite bool_decide_eq_false_2 by done.
  - intros text Hsome Hne Hparse.
    assert (E : read db disk = (Fail (SyntaxError text), set_data db ∅, disk)).
    { unfold read, fs_exists, fs_readFile. rewrite Hf.
      cbn [filePath set_data data]. rewrite Hsome.
      rewrite (bool_decide_eq_true_2 (is_Some (Some _))) by by eexists.
      cbn [negb]. rewrite map_size_empty.
      rewrite (bool_decide_eq_false_2 (0 ≠ 0)%nat) by lia.
      rewrite bool_decide_eq_false_2 by done.
      destruct (String.eqb text "") eqn:Et.
      - apply String.eqb_eq in Et. done.
      - by rewrite Hparse. }
    rewrite E. repeat split.
    intros Hempty. cbn [fst snd]. destruct db. simpl in *. by subst.
Qed.

(** *** Names that were never registered *)

Lemma schema_insert db collectionName values :
  schema (insert db collectionName values).2 = schema db.
Proof.
  unfold insert. destruct (noFilePath db); [done|].
  destruct (bool_decide _); [done|].
  assert (E : schema (autoIncrement db collectionName values).2 = schema db).
  { unfold autoIncrement. destruct (counters db !! collectionName).
    - by destruct (foldl autoIncrement_attr _ _).
    - by destruct (existsb _ _). }
  destruct (autoIncrement db collectionName values) as [[values1| | |] db1];
    simpl in *; try done.
  by destruct (data db1 !! collectionName).
Qed.

Lemma schema_update db collectionName options values :
  schema (update db collectionName options values).2 = schema db.
Proof. by rewrite update_db. Qed.

Lemma schema_destroy db collectionName options :
  schema (destroy db collectionName options).2 = schema db.
Proof.
  destruct (destroy_db db collectionName options) as [-> | [_ ->]]; done.
Qed.

Lemma filePath_destroy db collectionName options :
  filePath (destroy db collectionName options).2 = filePath db.
Proof.
  destruct (destroy_db db collectionName options) as [-> | [_ ->]]; done.
Qed.

Lemma schema_setCollection db collectionName options name :
  collectionName ≠ name →
  schema (setCollection db collectionName options).2 !! name = schema db !! name.
Proof.
  intros Hne. unfold setCollection. case_match; [done|]. simpl.
  by rewrite lookup_insert_ne.
Qed.

Lemma schema_dropCollection db collectionName relations disk name :
  schema db !! name = None →
  schema (dropCollection db collectionName relations disk).1.2 !! name = None.
Proof.
  intros Hs. unfold dropCollection. destruct (noFilePath db); [done|].
  set (db2 := set_schema (set_data db (delete collectionName (data db)))
                         (delete collectionName (schema (set_data db _)))).
  destruct (dropCollection_relations db2 relations) as (_ & I2 & _).
  destruct (write _ collectionName disk) as [r disk1]. cbn [fst snd].
  rewrite I2. destruct (decide (name ∈ relations)); [done|].
  simpl. destruct (decide (collectionName = name)) as [->|Hne].
  - by rewrite lookup_delete_eq.
  - by rewrite lookup_delete_ne.
Qed.

Lemma run_keeps_unregistered op db disk name :
  ¬ registers op name →
  schema db !! name = None →
  schema (run op db disk).1 !! name = None.
Proof.
  intros Hop Hs. destruct op; simpl in *.
  - unfold registerCollection. by rewrite schema_setCollection.
  - done.
  - unfold createCollection.
    pose proof (schema_setCollection db collectionName (None, definition) name Hop) as E.
    destruct (setCollection db collectionName (None, definition)) as [[| | |] db1];
      simpl in *; congruence.
  - pose proof (schema_dropCollection db collectionName relations disk name Hs) as D.
    by destruct (dropCollection db collectionName relations disk) as [[r db1] disk1].
  - done.
  - by rewrite schema_insert.
  - by rewrite schema_update.
  - by rewrite schema_destroy.
  - unfold writeQueue_worker. destruct (writeQueue db); [done|].
    by destruct (write db _ disk).
Qed.

(** From the constructor on, a name that no operation registers has no
    schema in the store. *)
Lemma never_registered_no_schema config colls ops disk name :
  Forall (fun op => ¬ registers op name) ops →
  schema (runAll ops (Database_new config colls) disk).1 !! name = None.
Proof.
  unfold runAll.
  assert (G : ∀ db d, schema db !! name = None →
                Forall (fun op => ¬ registers op name) ops →
                schema (foldl (fun st op => run op st.1 st.2) (db, d) ops).1 !! name
                = None).
  { induction ops as [|op ops IH]; intros db d Hs Hall; [done|].
    apply Forall_cons in Hall as [Hop Hall]. rewrite foldl_step.
    pose proof (run_keeps_unregistered op db d name Hop Hs) as Hs1.
    cbn [fst snd]. destruct (run op db d) as [db1 d1]. by apply IH. }
  intros Hall. by apply G.
Qed.

(** The constructor always builds a file path: it ends in [.db]. *)
Lemma Database_new_filePath config colls :
  noFilePath (Database_new config colls) = false.
Proof.
  unfold noFilePath, Database_new. cbn [filePath].
  destruct (config_filePath config) as [filePath_|],
           (config_identity config) as [identity|]; cbn [str_of default];
    try done.
  - destruct filePath_; [|done]. by destruct identity.
  - by destruct filePath_.
Qed.

Lemma filePath_insert db collectionName values :
  filePath (insert db collectionName values).2 = filePath db.
Proof.
  unfold insert. destruct (noFilePath db); [done|].
  destruct (bool_decide _); [done|].
  assert (E : filePath (autoIncrement db collectionName values).2 = filePath db).
  { unfold autoIncrement. destruct (counters db !! collectionName).
    - by destruct (foldl autoIncrement_attr _ _).
    - by destruct (existsb _ _). }
  destruct (autoIncrement db collectionName values) as [[values1| | |] db1];
    simpl in *; try done.
  by destruct (data db1 !! collectionName).
Qed.

Lemma filePath_update db collectionName options values :
  filePath (update db collectionName options values).2 = filePath db.
Proof. by rewrite update_db. Qed.

Lemma filePath_dropCollection db collectionName relations disk :
  filePath (dropCollection db collectionName relations disk).1.2 = filePath db.
Proof.
  unfold dropCollection. destruct (noFilePath db); [done|].
  set (db2 := set_schema (set_data db (delete collectionName (data db)))
                         (delete collectionName (schema (set_data db _)))).
  destruct (dropCollection_relations db2 relations) as (_ & _ & _ & I4 & _).
  destruct (write _ collectionName disk) as [r disk1]. cbn [fst snd].
  by rewrite I4.
Qed.

Lemma filePath_run op db disk : filePath (run op db disk).1 = filePath db.
Proof.
  destruct op; simpl; try done.
  - unfold registerCollection, setCollection. by destruct (noFilePath db).
  - unfold createCollection, setCollection. by destruct (noFilePath db).
  - pose proof (filePath_dropCollection db collectionName relations disk) as D.
    by destruct (dropCollection db collectionName relations disk) as [[r db1] disk1].
  - apply filePath_insert.
  - apply filePath_update.
  - apply filePath_destroy.
  - unfold writeQueue_worker. destruct (writeQueue db); [done|].
    by destruct (write db _ disk).
Qed.

Lemma filePath_runAll ops db disk : filePath (runAll ops db disk).1 = filePath db.
Proof.
  unfold runAll. revert db disk.
  induction ops as [|op ops IH]; intros db disk; [done|].
  rewrite foldl_step. cbn [fst snd].
  pose proof (filePath_run op db disk) as E.
  destruct (run op db disk) as [db1 disk1]. rewrite IH. exact E.
Qed.

(** On an engine built by the constructor and run through any operations,
    [describe] of a name that none of them registered is the null schema. *)
Lemma describe_never_registered config colls ops disk name :
  Forall (fun op => ¬ registers op name) ops →
  describe (runAll ops (Database_new config colls) disk).1 name = Done None.
Proof.
  intros Hall. unfold describe, getCollection, noFilePath.
  rewrite filePath_runAll. fold (noFilePath (Database_new config colls)).
  rewrite Database_new_filePath.
  by rewrite (never_registered_no_schema _ _ _ _ _ Hall).
Qed.

(** ** Further properties of the engine *)

(** *** Records under update and destroy *)

(** With the lodash that the package file asks for, [update] and
    [destroy] change no record, on an engine with a file path.  [update]
    raises a [TypeError] whatever it is called with, and leaves the engine as
    it was.  [destroy] leaves every record of every collection in place: on a
    collection that holds a record it raises a [TypeError] and leaves the
    engine as it was; on a collection that is missing or empty it succeeds,
    leaves the empty array under the name and asks for one write. *)
Theorem update_destroy_keep_records db collectionName options values name records :
  noFilePath db = false →
  data db !! name = Some records →
  update db collectionName options values = (TypeError, db)
  ∧ data (destroy db collectionName options).2 !! name = Some records
  ∧ (name = collectionName → records ≠ [] →
     destroy db collectionName options = (TypeError, db))
  ∧ (default [] (data db !! collectionName) = [] →
     (destroy db collectionName options).1 = Done tt
     ∧ data (destroy db collectionName options).2 !! collectionName = Some []
     ∧ writeQueue (destroy db collectionName options).2
       = writeQueue db ++ [collectionName]).
Proof.
  intros Hf Hd. split; [by apply update_throws|]. split; [|split].
  - destruct (destroy_db db collectionName options) as [-> | [Hempty ->]];
      [done|].
    cbn [data writeQueue_push set_data].
    destruct (decide (collectionName = name)) as [->|Hne].
    + rewrite lookup_insert_eq. rewrite Hd in Hempty. simpl in Hempty.
      by rewrite Hempty.
    + by rewrite lookup_insert_ne.
  - intros -> Hne. destruct records as [|model models]; [done|].
    by apply (destroy_throws _ _ _ model models).
  - intros Hempty. rewrite (destroy_empty _ _ _ Hf Hempty).
    cbn [fst snd data writeQueue writeQueue_push set_data].
    by rewrite lookup_insert_eq.
Qed.

(** *** Names without a schema *)

Lemma set_counters_id db : set_counters db (counters db) = db.
Proof. by destruct db. Qed.

Lemma autoIncrement_no_schema db collectionName values :
  schema db !! collectionName = None →
  autoIncrement db collectionName values = (Done values, db).
Proof.
  intros Hs. unfold autoIncrement. rewrite Hs. cbn [default foldl existsb].
  destruct (counters db !! collectionName) as [counters_|] eqn:Hc; [|done].
  by rewrite insert_id, set_counters_id.
Qed.

Lemma serializeValues_no_schema db collectionName values :
  schema db !! collectionName = None →
  serializeValues db collectionName values = values.
Proof.
  intros Hs. unfold serializeValues. generalize (keys values) as ks.
  induction ks as [|key ks IH]; [done|].
  rewrite foldl_step. unfold serializeValues_key at 2. by rewrite Hs.
Qed.

Lemma uniqueConstraint_no_schema db collectionName values :
  schema db !! collectionName = None →
  uniqueConstraint db collectionName values = [].
Proof. intros Hs. unfold uniqueConstraint. by rewrite Hs. Qed.

Lemma insert_no_schema db collectionName values :
  noFilePath db = false →
  schema db !! collectionName = None →
  insert db collectionName values
  = match data db !! collectionName with
    | None => (Fail CollectionNotRegistered, db)
    | Some records =>
        (Done values,
         writeQueue_push
           (set_data db (<[collectionName := records ++ [values]]> (data db)))
           collectionName)
    end.
Proof.
  intros Hf Hs. unfold insert.
  rewrite Hf, (uniqueConstraint_no_schema _ _ _ Hs).
  rewrite bool_decide_eq_false_2 by (simpl; lia).
  rewrite (autoIncrement_no_schema _ _ _ Hs).
  by rewrite (serializeValues_no_schema _ _ _ Hs).
Qed.

(** A name that the store holds no records and no schema for, on an engine
    with a file path: [insert] reports that the collection is not registered
    and [update] with a value to set raises a [TypeError], each leaving the
    store as it was; [destroy] succeeds and leaves an empty array of records
    under the name, after which [insert] stores its candidate as given. *)
Theorem unregistered_name db collectionName options values :
  noFilePath db = false →
  data db !! collectionName = None →
  schema db !! collectionName = None →
  insert db collectionName values = (Fail CollectionNotRegistered, db)
  ∧ (values ≠ [] → update db collectionName options values = (TypeError, db))
  ∧ (destroy db collectionName options).1 = Done tt
  ∧ data (destroy db collectionName options).2 !! collectionName = Some []
  ∧ (insert (destroy db collectionName options).2 collectionName values).1
    = Done values
  ∧ data (insert (destroy db collectionName options).2 collectionName values).2
      !! collectionName
    = Some [values].
Proof.
  intros Hf Hd Hs.
  assert (Hempty : default [] (data db !! collectionName) = [])
    by (by rewrite Hd).
  split; [|split; [|split; [|split]]].
  - by rewrite (insert_no_schema _ _ _ Hf Hs), Hd.
  - intros _. by apply update_throws.
  - by rewrite (destroy_empty _ _ _ Hf Hempty).
  - rewrite (destroy_empty _ _ _ Hf Hempty). cbn. by rewrite lookup_insert_eq.
  - rewrite (destroy_empty _ _ _ Hf Hempty). cbn [snd].
    rewrite insert_no_schema by done.
    cbn. rewrite lookup_insert_eq. cbn. by rewrite lookup_insert_eq.
Qed.

(** *** Dropping, and what follows *)

Lemma dropCollection_lookup db collectionName relations disk :
  noFilePath db = false →
  let db' := (dropCollection db collectionName relations disk).1.2 in
  (∀ name, data db' !! name
           = if decide (name ∈ collectionName :: relations) then None
             else data db !! name)
  ∧ (∀ name, schema db' !! name
             = if decide (name ∈ collectionName :: relations) then None
               else schema db !! name)
  ∧ counters db' = counters db
  ∧ filePath db' = filePath db
  ∧ writeQueue db' = writeQueue db.
Proof.
  intros Hf. cbv zeta. unfold dropCollection. rewrite Hf.
  set (db2 := set_schema (set_data db (delete collectionName (data db)))
                         (delete collectionName (schema (set_data db _)))).
  destruct (dropCollection_relations db2 relations)
    as (I1 & I2 & I3 & I4 & I5 & I6).
  destruct (write _ collectionName disk) as [r disk1]. cbn [fst snd].
  split; [|split; [|by rewrite I3, I4, I6]].
  - intros name. rewrite I1.
    destruct (decide (name ∈ relations)) as [Hin|Hin].
    + rewrite decide_True by (by right). done.
    + destruct (decide (name = collectionName)) as [->|Hne].
      * rewrite decide_True by (by left). simpl. by rewrite lookup_delete_eq.
      * rewrite decide_False by (by intros [?|?]%elem_of_cons).
        simpl. by rewrite lookup_delete_ne.
  - intros name. rewrite I2.
    destruct (decide (name ∈ relations)) as [Hin|Hin].
    + rewrite decide_True by (by right). done.
    + destruct (decide (name = collectionName)) as [->|Hne].
      * rewrite decide_True by (by left). simpl. by rewrite lookup_delete_eq.
      * rewrite decide_False by (by intros [?|?]%elem_of_cons).
        simpl. by rewrite lookup_delete_ne.
Qed.

(** After [dropCollection], on an engine with a file path, each dropped
    name behaves as one that was never registered: [describe] gives the
    null schema and [insert] is turned away as not registered, without
    effect. *)
Theorem dropCollection_unregisters db collectionName relations disk name values :
  noFilePath db = false →
  name ∈ collectionName :: relations →
  let db' := (dropCollection db collectionName relations disk).1.2 in
  describe db' name = Done None
  ∧ insert db' name values = (Fail CollectionNotRegistered, db').
Proof.
  intros Hf Hin. cbv zeta.
  destruct (dropCollection_lookup db collectionName relations disk Hf)
    as (D1 & D2 & _ & D4 & _).
  set (db' := (dropCollection db collectionName relations disk).1.2) in *.
  assert (Hf' : noFilePath db' = false).
  { unfold noFilePath in *. by rewrite D4. }
  assert (Hd : data db' !! name = None) by (by rewrite D1, decide_True).
  assert (Hs : schema db' !! name = None) by (by rewrite D2, decide_True).
  split.
  - unfold describe, getCollection. by rewrite Hf', Hs.
  - by rewrite (insert_no_schema _ _ _ Hf' Hs), Hd.
Qed.

(** *** Creating and registering *)

Lemma setCollection_effect db collectionName options :
  noFilePath db = false →
  setCollection db collectionName options
  = (Done {| c_data := default [] (data db !! collectionName);
             c_schema := default [] options.2;
             c_counters := default ∅ (counters db !! collectionName) |},
     {| filePath := filePath db; collections := collections db;
        data := <[collectionName := default [] (data db !! collectionName)]> (data db);
        counters :=
          <[collectionName := default ∅ (counters db !! collectionName)]> (counters db);
        schema := <[collectionName := default [] options.2]> (schema db);
        writeQueue := writeQueue db |}).
Proof. intros Hf. unfold setCollection. by rewrite Hf. Qed.

Lemma describe_schema db collectionName :
  noFilePath db = false →
  describe db collectionName
  = Done (match default [] (schema db !! collectionName) with
          | [] => None
          | sch => Some sch
          end).
Proof.
  intros Hf. unfold describe, getCollection. rewrite Hf. cbn [c_schema].
  by destruct (default [] (schema db !! collectionName)).
Qed.

(** [createCollection] on an engine with a file path: it hands back the
    definition, which replaces whatever schema the name had; the records and
    the counters that the name had stay, a new name starts with none; no
    other collection is touched; one write is requested; and [describe] then
    gives the definition back, or the null schema when it has no attribute. *)
Theorem createCollection_describe db collectionName definition :
  noFilePath db = false →
  let db' := (createCollection db collectionName definition).2 in
  (createCollection db collectionName definition).1 = Done (default [] definition)
  ∧ describe db' collectionName
    = Done (match default [] definition with [] => None | sch => Some sch end)
  ∧ schema db' !! collectionName = Some (default [] definition)
  ∧ data db' !! collectionName = Some (default [] (data db !! collectionName))
  ∧ counters db' !! collectionName
    = Some (default ∅ (counters db !! collectionName))
  ∧ (∀ name, name ≠ collectionName →
       data db' !! name = data db !! name
       ∧ schema db' !! name = schema db !! name
       ∧ counters db' !! name = counters db !! name)
  ∧ writeQueue db' = writeQueue db ++ [collectionName].
Proof.
  intros Hf. cbv zeta. unfold createCollection.
  rewrite (setCollection_effect _ _ _ Hf). cbn [fst snd c_schema].
  split; [done|]. split.
  { rewrite describe_schema by done. cbn [schema writeQueue_push].
    by rewrite lookup_insert_eq. }
  cbn. rewrite !lookup_insert_eq. repeat split; try done;
    by rewrite lookup_insert_ne.
Qed.

(** [registerCollection] on an engine with a file path: the records and the
    counters that the name had stay, a new name starts with none, whatever
    [data] the collection is registered with; the definition replaces the
    schema; and no write is requested. *)
Theorem registerCollection_keeps_records db collectionName data_ definition :
  noFilePath db = false →
  let db' := (registerCollection db collectionName (data_, definition)).2 in
  data db' !! collectionName = Some (default [] (data db !! collectionName))
  ∧ counters db' !! collectionName
    = Some (default ∅ (counters db !! collectionName))
  ∧ schema db' !! collectionName = Some (default [] definition)
  ∧ registerCollection db collectionName (data_, definition)
    = registerCollection db collectionName (None, definition)
  ∧ writeQueue db' = writeQueue db.
Proof.
  intros Hf. cbv zeta. unfold registerCollection.
  rewrite !(setCollection_effect _ _ _ Hf). cbn.
  by rewrite !lookup_insert_eq.
Qed.

(** *** Accepted inserts *)

Lemma checkUniqueness_nil_iff schema_ records candidate :
  checkUniqueness schema_ records candidate = []
  ↔ ∀ attrName attrDef_ r,
      (attrName, attrDef_) ∈ schema_ →
      Attr.unique attrDef_ = true →
      r ∈ records →
      prop candidate attrName ≠ VUndefined →
      prop r attrName ≠ prop candidate attrName.
Proof.
  split.
  - intros E a d r Ha Hu Hr Hv Heq.
    assert (Hin : UniquenessValue a (prop candidate a)
                  ∈ checkUniqueness schema_ records candidate).
    { apply checkUniqueness_elem. by exists a, d, r. }
    rewrite E in Hin. by apply not_elem_of_nil in Hin.
  - intros Hno. destruct (checkUniqueness schema_ records candidate) as [|e es] eqn:E;
      [done|]. exfalso.
    assert (Hin : e ∈ checkUniqueness schema_ records candidate)
      by (rewrite E; by left).
    apply checkUniqueness_elem in Hin as (a & d & r & Ha & Hu & Hr & Hv & Heq & _).
    by apply (Hno a d r).
Qed.

(** The value stored under a key that auto-increment and coercion pass by. *)
Lemma insert_stored_prop db collectionName schema_ counters_ values key :
  schema db !! collectionName = Some schema_ →
  wf_obj schema_ →
  wf_obj values →
  (∀ attrDef_, own schema_ key = Some attrDef_ →
     Attr.autoIncrement attrDef_ = false
     ∧ Attr.type attrDef_ ≠ Some "json") →
  let st := foldl autoIncrement_attr (counters_, values) schema_ in
  prop (serializeValues
          (set_counters db (<[collectionName := st.1]> (counters db)))
          collectionName st.2) key
  = prop values key.
Proof.
  intros Hs Hwf Hwfv Hkey. cbv zeta.
  set (st := foldl autoIncrement_attr (counters_, values) schema_).
  set (db1 := set_counters db (<[collectionName := st.1]> (counters db))).
  assert (Hs1 : schema db1 !! collectionName = Some schema_) by done.
  assert (Hwf1 : wf_obj st.2) by by apply autoIncrement_loop_wf.
  destruct (serializeValues_coerced db1 collectionName schema_ st.2 Hs1 Hwf1)
    as [_ Hprop].
  assert (Hst : prop st.2 key = prop values key).
  { pose proof (autoIncrement_loop schema_ counters_ values key Hwf) as L.
    destruct (own schema_ key) as [d|] eqn:Ho.
    - destruct (Hkey d eq_refl) as [Hai _]. rewrite Hai in L. simpl in L.
      by destruct L.
    - by destruct L. }
  rewrite Hprop. destruct (decide (key ∈ keys st.2)) as [Hin|Hin].
  - unfold coerced. destruct (own schema_ key) as [d|] eqn:Ho; [|done].
    destruct (Hkey d eq_refl) as [_ Hty].
    by rewrite bool_decide_eq_false_2.
  - rewrite <- Hst. unfold prop. by rewrite (own_None _ _ Hin).
Qed.

(** [insert] into a registered collection is accepted exactly when no
    existing record holds, under a unique attribute, the value that the
    candidate carries for it.  An accepted insert puts one record at the end
    of the collection and leaves the others in place; what the candidate
    carries under a key that is neither an auto-increment nor a [json]
    attribute, the keys outside the schema among them, is stored as given; no
    other collection and no schema is touched; one write is requested. *)
Theorem insert_accepted_appends db collectionName schema_ records counters_ values :
  noFilePath db = false →
  schema db !! collectionName = Some schema_ →
  data db !! collectionName = Some records →
  counters db !! collectionName = Some counters_ →
  wf_obj schema_ →
  wf_obj values →
  let no_collision :=
    ∀ attrName attrDef_ r,
      (attrName, attrDef_) ∈ schema_ →
      Attr.unique attrDef_ = true →
      r ∈ records →
      prop values attrName ≠ VUndefined →
      prop r attrName ≠ prop values attrName in
  let db' := (insert db collectionName values).2 in
  (accepted (insert db collectionName values).1 ↔ no_collision)
  ∧ (no_collision →
     ∃ stored,
       (insert db collectionName values).1 = Done stored
       ∧ data db' !! collectionName = Some (records ++ [stored])
       ∧ (∀ key,
            (∀ attrDef_, own schema_ key = Some attrDef_ →
               Attr.autoIncrement attrDef_ = false
               ∧ Attr.type attrDef_ ≠ Some "json") →
            prop stored key = prop values key)
       ∧ (∀ name, name ≠ collectionName →
            data db' !! name = data db !! name
            ∧ counters db' !! name = counters db !! name)
       ∧ schema db' = schema db
       ∧ writeQueue db' = writeQueue db ++ [collectionName]).
Proof.
  intros Hf Hs Hd Hc Hwf Hwfv. cbv zeta.
  rewrite (insert_registered _ _ _ _ _ _ Hf Hs Hd Hc).
  rewrite (uniqueConstraint_checkUniqueness _ _ _ _ _ Hs Hd).
  rewrite <- checkUniqueness_nil_iff.
  destruct (checkUniqueness schema_ records values) as [|e es] eqn:E.
  - rewrite bool_decide_eq_false_2 by (simpl; lia). cbn [fst snd].
    split; [done|]. intros _. eexists. split; [reflexivity|].
    split; [cbn; by rewrite lookup_insert_eq|].
    split; [intros key Hkey; by apply insert_stored_prop|].
    split; [|done].
    intros name Hne. cbn. by rewrite !lookup_insert_ne.
  - rewrite bool_decide_eq_true_2 by (simpl; lia). cbn [fst snd].
    split; [done|]. done.
Qed.

(** *** Dropping and creating again *)

(** A collection that is dropped and created again under its name, on an
    engine with a file path, starts without records and goes on counting
    where it was: the first insert that omits an auto-increment attribute is
    accepted and, the counter from before the drop being at least [-2^53]
    and below [2^53], gets the value after it. *)
Theorem drop_create_continues_counting db collectionName relations disk
    schema_ attrName attrDef_ values :
  noFilePath db = false →
  wf_obj schema_ →
  (attrName, attrDef_) ∈ schema_ →
  Attr.autoIncrement attrDef_ = true →
  (∀ m, JSON_parse (VNum m) = Some (VNum m)) →
  prop values attrName = VUndefined →
  (- 2 ^ 53 ≤ counter db collectionName attrName < 2 ^ 53)%Z →
  let db1 := (dropCollection db collectionName relations disk).1.2 in
  let db2 := (createCollection db1 collectionName (Some schema_)).2 in
  data db2 !! collectionName = Some []
  ∧ counter db2 collectionName attrName = counter db collectionName attrName
  ∧ ∃ stored,
      (insert db2 collectionName values).1 = Done stored
      ∧ prop stored attrName
        = VNum (counter db collectionName attrName + 1)%Z
      ∧ counter (insert db2 collectionName values).2 collectionName attrName
        = (counter db collectionName attrName + 1)%Z.
Proof.
  intros Hf Hwf Hin Hai HJ Hv Hbound. cbv zeta.
  destruct (dropCollection_lookup db collectionName relations disk Hf)
    as (D1 & D2 & D3 & D4 & _).
  set (db1 := (dropCollection db collectionName relations disk).1.2) in *.
  assert (Hf1 : noFilePath db1 = false).
  { unfold noFilePath in *. by rewrite D4. }
  unfold createCollection. rewrite (setCollection_effect _ _ _ Hf1).
  cbn [fst snd c_schema].
  set (db2 := writeQueue_push _ collectionName).
  assert (Hd2 : data db2 !! collectionName = Some []).
  { cbn. rewrite lookup_insert_eq, D1. by rewrite decide_True by (by left). }
  assert (Hs2 : schema db2 !! collectionName = Some schema_).
  { cbn. by rewrite lookup_insert_eq. }
  assert (Hc2 : counters db2 !! collectionName
                = Some (default ∅ (counters db !! collectionName))).
  { cbn. by rewrite lookup_insert_eq, D3. }
  assert (Hf2 : noFilePath db2 = false) by done.
  assert (Hcnt : counter db2 collectionName attrName
                 = counter db collectionName attrName).
  { unfold counter. rewrite Hc2. by destruct (counters db !! collectionName). }
  split; [done|]. split; [done|].
  assert (Hreg : registered db2 collectionName schema_).
  { repeat split; try done; by eexists. }
  destruct (insert_omitting db2 collectionName schema_ attrName attrDef_ values
              Hreg Hwf Hin Hai HJ Hv)
    as [[es Hins] | (stored & db3 & Hins & Hst & Hc3 & _)].
  - exfalso. rewrite (insert_registered _ _ _ _ _ _ Hf2 Hs2 Hd2 Hc2) in Hins.
    rewrite (uniqueConstraint_checkUniqueness _ _ _ _ _ Hs2 Hd2) in Hins.
    assert (E : checkUniqueness schema_ [] values = []).
    { apply checkUniqueness_nil_iff. intros a d r _ _ Hr.
      by apply not_elem_of_nil in Hr. }
    rewrite E in Hins. by rewrite bool_decide_eq_false_2 in Hins by (simpl; lia).
  - exists stored. rewrite Hins. cbn [fst snd].
    by rewrite Hst, Hc3, Hcnt, js_succ_exact.
Qed.

(** *** The invariant of the unique attributes *)

Lemma held_app attrName records1 records2 :
  held attrName (records1 ++ records2)
  = held attrName records1 ++ held attrName records2.
Proof. unfold held. by rewrite List.map_app, List.filter_app. Qed.

Lemma elem_of_held attrName records v :
  v ∈ held attrName records
  ↔ v ≠ VUndefined ∧ ∃ r, r ∈ records ∧ prop r attrName = v.
Proof.
  unfold held. rewrite list_elem_of_In, filter_In, in_map_iff. split.
  - intros [(r & Hr & Hin) Hv]. split; [by destruct v|].
    exists r. split; [by apply list_elem_of_In | done].
  - intros [Hv (r & Hin & Hr)]. split; [|by destruct v].
    exists r. split; [done | by apply list_elem_of_In].
Qed.

(** [insert] keeps the invariant of the unique attributes, in a registered
    collection whose unique attributes are neither auto-increment nor of type
    [json]: when no value was held twice under a unique attribute before the
    insert, none is after it, whether the candidate was stored or turned
    away. *)
Theorem insert_keeps_unique db collectionName schema_ records counters_ values :
  noFilePath db = false →
  schema db !! collectionName = Some schema_ →
  data db !! collectionName = Some records →
  counters db !! collectionName = Some counters_ →
  wf_obj schema_ →
  wf_obj values →
  (∀ attrName attrDef_,
     (attrName, attrDef_) ∈ schema_ →
     Attr.unique attrDef_ = true →
     Attr.autoIncrement attrDef_ = false ∧ Attr.type attrDef_ ≠ Some "json") →
  unique_inv schema_ records →
  ∃ records',
    data (insert db collectionName values).2 !! collectionName = Some records'
    ∧ unique_inv schema_ records'.
Proof.
  intros Hf Hs Hd Hc Hwf Hwfv Hplain Hinv.
  rewrite (insert_registered _ _ _ _ _ _ Hf Hs Hd Hc).
  rewrite (uniqueConstraint_checkUniqueness _ _ _ _ _ Hs Hd).
  destruct (checkUniqueness schema_ records values) as [|e es] eqn:E.
  - rewrite bool_decide_eq_false_2 by (simpl; lia). cbn [snd].
    eexists. split; [cbn; by rewrite lookup_insert_eq|].
    intros a d Ha Hu. rewrite held_app. apply NoDup_app.
    split; [by apply (Hinv a d)|]. split.
    + intros v Hv Hnew. unfold held in Hnew. simpl in Hnew.
      destruct (Hplain a d Ha Hu) as [Hai Hty].
      rewrite (insert_stored_prop db collectionName schema_ counters_ values a
                 Hs Hwf Hwfv) in Hnew.
      2:{ intros d' Ho. rewrite (own_elem_of _ _ _ Hwf Ha) in Ho.
          by injection Ho as <-. }
      destruct (isUndefined (prop values a)) eqn:Hundef; simpl in Hnew.
      { by apply not_elem_of_nil in Hnew. }
      apply list_elem_of_singleton in Hnew. subst v.
      apply elem_of_held in Hv as [Hdef (r & Hr & Heq)].
      pose proof (proj1 (checkUniqueness_nil_iff schema_ records values) E) as Hno.
      by apply (Hno a d r).
    + unfold held. simpl. destruct (negb _); [apply NoDup_singleton | apply NoDup_nil_2].
  - rewrite bool_decide_eq_true_2 by (simpl; lia). cbn [snd]. by exists records.
Qed.

(** *** Reading, writing and starting up *)

(** [read] never takes its branch for a state that is in memory already:
    the data that the branch tests has been emptied two lines above.  It
    fails, or raises a [TypeError] on a file whose text is [null], or hands
    back a state that comes from the disk. *)
Theorem read_never_from_memory db disk :
  (∃ e, (read db disk).1.1 = Fail e)
  ∨ (read db disk).1.1 = TypeError
  ∨ (∃ state, (read db disk).1.1 = Done (FromDisk state)).
Proof.
  unfold read. destruct (noFilePath db); [left; by eexists|].
  destruct (negb (fs_exists disk (filePath db))).
  { destruct (fs_createFile disk _); [left | right; right]; by eexists. }
  cbn [data set_data]. rewrite map_size_empty.
  rewrite (bool_decide_eq_false_2 (0 ≠ 0)%nat) by lia.
  destruct (fs_readFile disk _) as [err|text]; [left; by eexists|].
  destruct (String.eqb text ""); [right; right; by eexists|].
  destruct (JSON_parse_state text);
    [left; by eexists | right; by left | right; right; by eexists].
Qed.

Lemma write_allowed db collectionName disk :
  noFilePath db = false →
  filePath db ∉ denied disk →
  write db collectionName disk
  = (Done tt,
     {| files := <[filePath db := JSON_stringify_state (engineState db)]> (files disk);
        denied := denied disk |}).
Proof.
  intros Hf Hd. unfold write, fs_createFile, fs_outputJson. rewrite Hf.
  rewrite bool_decide_eq_false_2 by done.
  destruct (fs_exists disk (filePath db)); simpl;
    rewrite bool_decide_eq_false_2 by done; [done|].
  by rewrite insert_insert_eq.
Qed.

Lemma read_decoded db disk text state :
  noFilePath db = false →
  filePath db ∉ denied disk →
  files disk !! filePath db = Some text →
  text ≠ "" →
  JSON_parse_state text = Parsed state →
  read db disk
  = (Done (FromDisk state),
     {| filePath := filePath db; collections := collections db;
        data := st_data state; counters := st_counters state;
        schema := st_schema state; writeQueue := writeQueue db |},
     disk).
Proof.
  intros Hf Hd Hsome Hne Hparse. unfold read, fs_exists, fs_readFile. rewrite Hf.
  cbn [filePath set_data data collections writeQueue]. rewrite Hsome.
  rewrite (bool_decide_eq_true_2 (is_Some (Some _))) by by eexists.
  cbn [negb]. rewrite map_size_empty.
  rewrite (bool_decide_eq_false_2 (0 ≠ 0)%nat) by lia.
  rewrite bool_decide_eq_false_2 by done.
  destruct (String.eqb text "") eqn:Et.
  - apply String.eqb_eq in Et. done.
  - by rewrite Hparse.
Qed.

(** What one engine writes, another engine on the same file reads: when
    the text of the state is not empty and decodes to the state, a [read]
    after a [write] hands back the data, the schema and the counters of the
    writer and puts them in memory, whatever the reader held before. *)
Theorem write_then_read db reader collectionName disk :
  noFilePath db = false →
  filePath db ∉ denied disk →
  filePath reader = filePath db →
  JSON_stringify_state (engineState db) ≠ "" →
  JSON_parse_state (JSON_stringify_state (engineState db))
  = Parsed (engineState db) →
  let disk1 := (write db collectionName disk).2 in
  let reader' := (read reader disk1).1.2 in
  (write db collectionName disk).1 = Done tt
  ∧ (read reader disk1).1.1 = Done (FromDisk (engineState db))
  ∧ data reader' = data db
  ∧ schema reader' = schema db
  ∧ counters reader' = counters db
  ∧ (read reader disk1).2 = disk1.
Proof.
  intros Hf Hd Hp Hne Hparse. cbv zeta.
  rewrite (write_allowed _ _ _ Hf Hd). cbn [fst snd].
  assert (Hfr : noFilePath reader = false).
  { unfold noFilePath in *. by rewrite Hp. }
  rewrite (read_decoded reader _ (JSON_stringify_state (engineState db))
             (engineState db)); try done.
  - by rewrite Hp.
  - cbn [files]. by rewrite Hp, lookup_insert_eq.
Qed.

Lemma registerAll_effect db colls :
  noFilePath db = false →
  wf_obj colls →
  let db' := (registerAll db colls).2 in
  (registerAll db colls).1 = Done tt
  ∧ (∀ name,
       data db' !! name
       = match own colls name with
         | Some _ => Some (default [] (data db !! name))
         | None => data db !! name
         end)
  ∧ (∀ name,
       schema db' !! name
       = match own colls name with
         | Some collection => Some (default [] collection.2)
         | None => schema db !! name
         end)
  ∧ (∀ name,
       counters db' !! name
       = match own colls name with
         | Some _ => Some (default ∅ (counters db !! name))
         | None => counters db !! name
         end)
  ∧ writeQueue db' = writeQueue db
  ∧ filePath db' = filePath db.
Proof.
  unfold wf_obj. revert db.
  induction colls as [|[key collection] rest IH]; intros db Hf Hnd; [done|].
  apply NoDup_cons in Hnd as [Hkey Hnd]. simpl in Hkey.
  cbv zeta. cbn [registerAll]. unfold registerCollection.
  rewrite (setCollection_effect _ _ _ Hf).
  set (db1 := {| filePath := filePath db; collections := collections db;
                 data := _; counters := _; schema := _; writeQueue := _ |}).
  assert (Hf1 : noFilePath db1 = false) by done.
  destruct (IH db1 Hf1 Hnd) as (I0 & I1 & I2 & I3 & I4 & I5).
  split; [done|]. split; [|split; [|split; [|split; [by rewrite I4 | by rewrite I5]]]].
  - intros name. rewrite I1. cbn [own].
    destruct (String.eqb name key) eqn:E.
    + apply String.eqb_eq in E. subst name. rewrite (own_None _ _ Hkey).
      cbn. by rewrite lookup_insert_eq.
    + apply String.eqb_neq in E. cbn. by rewrite lookup_insert_ne.
  - intros name. rewrite I2. cbn [own].
    destruct (String.eqb name key) eqn:E.
    + apply String.eqb_eq in E. subst name. rewrite (own_None _ _ Hkey).
      cbn. by rewrite lookup_insert_eq.
    + apply String.eqb_neq in E. cbn. by rewrite lookup_insert_ne.
  - intros name. rewrite I3. cbn [own].
    destruct (String.eqb name key) eqn:E.
    + apply String.eqb_eq in E. subst name. rewrite (own_None _ _ Hkey).
      cbn. by rewrite lookup_insert_eq.
    + apply String.eqb_neq in E. cbn. by rewrite lookup_insert_ne.
Qed.

(** [initialize] on a new engine whose file does not exist: the file is
    created, empty; every configured collection is registered with its
    definition, without records and without counters, whatever [data] it was
    configured with; nothing else is in the store; no write is requested;
    and the callback is never called. *)
Theorem initialize_first_start config colls disk :
  wf_obj colls →
  let db := Database_new config colls in
  files disk !! filePath db = None →
  filePath db ∉ denied disk →
  let db' := (initialize db disk).1.2 in
  (initialize db disk).1.1 = NeverCalledBack
  ∧ (initialize db disk).2
    = {| files := <[filePath db := ""]> (files disk); denied := denied disk |}
  ∧ (∀ name collection,
       own colls name = Some collection →
       data db' !! name = Some []
       ∧ schema db' !! name = Some (default [] collection.2)
       ∧ counters db' !! name = Some ∅)
  ∧ (∀ name,
       own colls name = None →
       data db' !! name = None
       ∧ schema db' !! name = None
       ∧ counters db' !! name = None)
  ∧ writeQueue db' = [].
Proof.
  intros Hwf db Hnone Hd. cbv zeta.
  assert (Hf : noFilePath db = false) by apply Database_new_filePath.
  assert (Hread : read db disk
                  = (Done (FromDisk emptyState), db,
                     {| files := <[filePath db := ""]> (files disk);
                        denied := denied disk |})).
  { unfold read, fs_exists, fs_createFile. rewrite Hf.
    cbn [filePath set_data]. unfold fs_exists. rewrite Hnone.
    rewrite (bool_decide_eq_false_2 (is_Some None)) by (by intros [? ?]).
    cbn [negb]. by rewrite bool_decide_eq_false_2 by done. }
  unfold initialize. rewrite Hread.
  rewrite (bool_decide_eq_false_2 (0 < size (data db))%nat)
    by (cbn; rewrite map_size_empty; lia).
  destruct (registerAll_effect db (collections db) Hf Hwf)
    as (R0 & R1 & R2 & R3 & R4 & _).
  destruct (registerAll db (collections db)) as [r db'] eqn:Ereg.
  cbn [fst snd] in *. subst r.
  split; [done|]. split; [done|]. split; [|split; [|done]].
  - intros name collection Ho. rewrite R1, R2, R3.
    change (collections db) with colls. by rewrite Ho.
  - intros name Ho. rewrite R1, R2, R3.
    change (collections db) with colls. by rewrite Ho.
Qed.

(** [initialize] on a new engine whose file holds a state: the records and
    the counters of the file are in memory again, for the configured
    collections and for the others; a configured collection has the
    definition it is configured with, whatever schema the file held for it,
    and starts empty when the file does not know it; the file is not
    touched, no write is requested, and the callback is never called. *)
Theorem initialize_restart config colls disk text state :
  wf_obj colls →
  let db := Database_new config colls in
  files disk !! filePath db = Some text →
  filePath db ∉ denied disk →
  text ≠ "" →
  JSON_parse_state text = Parsed state →
  let db' := (initialize db disk).1.2 in
  (initialize db disk).1.1 = NeverCalledBack
  ∧ (initialize db disk).2 = disk
  ∧ (∀ name collection,
       own colls name = Some collection →
       data db' !! name = Some (default [] (st_data state !! name))
       ∧ schema db' !! name = Some (default [] collection.2)
       ∧ counters db' !! name = Some (default ∅ (st_counters state !! name)))
  ∧ (∀ name,
       own colls name = None →
       data db' !! name = st_data state !! name
       ∧ schema db' !! name = st_schema state !! name
       ∧ counters db' !! name = st_counters state !! name)
  ∧ writeQueue db' = [].
Proof.
  intros Hwf db Hsome Hd Hne Hparse. cbv zeta.
  assert (Hf : noFilePath db = false) by apply Database_new_filePath.
  unfold initialize.
  rewrite (read_decoded db disk text state Hf Hd Hsome Hne Hparse).
  rewrite (bool_decide_eq_false_2 (0 < size (data db))%nat)
    by (cbn; rewrite map_size_empty; lia).
  set (db1 := {| filePath := filePath db; collections := collections db;
                 data := _; counters := _; schema := _; writeQueue := _ |}).
  assert (Hf1 : noFilePath db1 = false) by done.
  destruct (registerAll_effect db1 (collections db1) Hf1 Hwf)
    as (R0 & R1 & R2 & R3 & R4 & _).
  destruct (registerAll db1 (collections db1)) as [r db'] eqn:Ereg.
  cbn [fst snd] in *. subst r.
  split; [done|]. split; [done|]. split; [|split; [|done]].
  - intros name collection Ho. rewrite R1, R2, R3.
    change (collections db1) with colls. by rewrite Ho.
  - intros name Ho. rewrite R1, R2, R3.
    change (collections db1) with colls. by rewrite Ho.
Qed.

(** [initialize] stops at an error of [read] and registers nothing: a file
    that the file system does not let the engine at gives the error of the
    file system, a file whose text does not decode gives the decoding
    error, and the store of the new engine stays empty. *)
Theorem initialize_read_error config colls disk :
  let db := Database_new config colls in
  (filePath db ∈ denied disk →
   (initialize db disk).1.1 = Ended (Fail (IOError (filePath db)))
   ∧ schema (initialize db disk).1.2 = ∅
   ∧ data (initialize db disk).1.2 = ∅
   ∧ (initialize db disk).2 = disk)
  ∧ (∀ text,
       filePath db ∉ denied disk →
       files disk !! filePath db = Some text →
       text ≠ "" →
       JSON_parse_state text = Thrown →
       initialize db disk = (Ended (Fail (SyntaxError text)), db, disk)).
Proof.
  cbv zeta. set (db := Database_new config colls).
  assert (Hf : noFilePath db = false) by apply Database_new_filePath.
  assert (Hsize : bool_decide (0 < size (data db))%nat = false).
  { apply bool_decide_eq_false_2. cbn. rewrite map_size_empty. lia. }
  split.
  - intros Hden. unfold initialize. rewrite Hsize.
    unfold read, fs_createFile, fs_readFile. rewrite Hf.
    cbn [filePath set_data data]. rewrite map_size_empty.
    rewrite (bool_decide_eq_false_2 (0 ≠ 0)%nat) by lia.
    rewrite !(bool_decide_eq_true_2 (_ ∈ denied disk)) by done.
    by destruct (negb (fs_exists disk _)).
  - intros text Hd Hsome Hne Hparse. unfold initialize. rewrite Hsize.
    unfold read, fs_exists, fs_readFile. rewrite Hf.
    cbn [filePath set_data data]. rewrite Hsome.
    rewrite (bool_decide_eq_true_2 (is_Some (Some _))) by by eexists.
    cbn [negb]. rewrite map_size_empty.
    rewrite (bool_decide_eq_false_2 (0 ≠ 0)%nat) by lia.
    rewrite bool_decide_eq_false_2 by done.
    destruct (String.eqb text "") eqn:Et.
    + apply String.eqb_eq in Et. done.
    + by rewrite Hparse.
Qed.

(** [initialize] on an engine that holds data in memory does not go to the
    disk, whatever the file holds: the records and the counters in memory
    stay, and the configured collections are registered anew with their
    definitions; the callback is never called. *)
Theorem initialize_in_memory db disk :
  noFilePath db = false →
  wf_obj (collections db) →
  (0 < size (data db))%nat →
  let db' := (initialize db disk).1.2 in
  (initialize db disk).1.1 = NeverCalledBack
  ∧ (initialize db disk).2 = disk
  ∧ (∀ name records, data db !! name = Some records →
                     data db' !! name = Some records)
  ∧ (∀ name counters_, counters db !! name = Some counters_ →
                       counters db' !! name = Some counters_)
  ∧ (∀ name collection, own (collections db) name = Some collection →
                        schema db' !! name = Some (default [] collection.2)).
Proof.
  intros Hf Hwf Hsize. cbv zeta. unfold initialize.
  rewrite bool_decide_eq_true_2 by done.
  destruct (registerAll_effect db (collections db) Hf Hwf)
    as (R0 & R1 & R2 & R3 & _).
  destruct (registerAll db (collections db)) as [r db'] eqn:Ereg.
  cbn [fst snd] in *. subst r.
  split; [done|]. split; [done|]. split; [|split].
  - intros name records Hd. rewrite R1, Hd. by destruct (own _ name).
  - intros name counters_ Hc. rewrite R3, Hc. by destruct (own _ name).
  - intros name collection Ho. by rewrite R2, Ho.
Qed.

(** *** Engines built by the constructor *)

Lemma filePath_registerAll db colls :
  filePath (registerAll db colls).2 = filePath db.
Proof.
  revert db. induction colls as [|[key collection] rest IH]; intros db; [done|].
  cbn [registerAll]. unfold registerCollection, setCollection.
  destruct (noFilePath db); [done|]. by rewrite IH.
Qed.

Lemma filePath_read db disk : filePath (read db disk).1.2 = filePath db.
Proof.
  unfold read. destruct (noFilePath db); [done|].
  destruct (negb (fs_exists disk (filePath db))).
  { by destruct (fs_createFile disk _). }
  destruct (bool_decide _); [done|].
  destruct (fs_readFile disk _) as [err|text]; [done|].
  destruct (String.eqb text ""); [done|].
  by destruct (JSON_parse_state text).
Qed.

Lemma filePath_initialize db disk :
  filePath (initialize db disk).1.2 = filePath db.
Proof.
  unfold initialize. destruct (bool_decide _).
  - pose proof (filePath_registerAll db (collections db)) as E.
    by destruct (registerAll db (collections db)).
  - pose proof (filePath_read db disk) as E.
    destruct (read db disk) as [[[loaded_| | |] db1] disk1]; cbn [fst snd] in *;
      try done.
    pose proof (filePath_registerAll db1 (collections db1)) as E1.
    destruct (registerAll db1 (collections db1)). cbn [fst snd] in *. congruence.
Qed.

(** An engine built by the constructor has a file path, and keeps it
    through [initialize] and through the operations of the running engine:
    the path ends in [.db].  On such an engine the test for a missing file
    path never fires: [describe] always succeeds and [dropCollection] always
    calls back. *)
Theorem constructed_has_filePath config colls (initialized : bool) disk0 ops disk
    collectionName relations disk' :
  let db0 := Database_new config colls in
  let start := if initialized then (initialize db0 disk0).1.2 else db0 in
  let db := (runAll ops start disk).1 in
  noFilePath db = false
  ∧ (∃ s, describe db collectionName = Done s)
  ∧ (∃ r, (dropCollection db collectionName relations disk').1.1 = CalledBack r).
Proof.
  cbv zeta.
  set (start := if initialized
                then (initialize (Database_new config colls) disk0).1.2
                else Database_new config colls).
  set (db := (runAll ops start disk).1).
  assert (Hf : noFilePath db = false).
  { unfold noFilePath, db. rewrite filePath_runAll.
    assert (E : filePath start = filePath (Database_new config colls)).
    { unfold start. destruct initialized; [apply filePath_initialize | done]. }
    rewrite E. apply Database_new_filePath. }
  split; [done|]. split.
  - rewrite describe_schema by done. by eexists.
  - unfold dropCollection. rewrite Hf.
    destruct (write _ collectionName disk') as [r disk1]. by eexists.
Qed.

(** *** The write queue *)

Lemma writeQueue_autoIncrement db collectionName values :
  writeQueue (autoIncrement db collectionName values).2 = writeQueue db.
Proof.
  unfold autoIncrement. destruct (counters db !! collectionName).
  - by destruct (foldl autoIncrement_attr _ _).
  - by destruct (existsb _ _).
Qed.

(** A write is scheduled for an operation exactly when the operation
    succeeds: [insert], [update], [destroy] and [createCollection] put one
    task for their collection at the end of the write queue when they call
    back without an error, and leave the queue as it was when they fail or
    raise an error, as [update] always does and [destroy] does on a
    collection that holds a record; [registerCollection] schedules
    nothing. *)
Theorem write_scheduled_on_success db collectionName values options definition
    collection :
  let scheduled {A} (r : result A) :=
    match r with
    | Done _ => writeQueue db ++ [collectionName]
    | _ => writeQueue db
    end in
  writeQueue (insert db collectionName values).2
  = scheduled (insert db collectionName values).1
  ∧ writeQueue (update db collectionName options values).2
    = scheduled (update db collectionName options values).1
  ∧ writeQueue (destroy db collectionName options).2
    = scheduled (destroy db collectionName options).1
  ∧ writeQueue (createCollection db collectionName definition).2
    = scheduled (createCollection db collectionName definition).1
  ∧ writeQueue (registerCollection db collectionName collection).2
    = writeQueue db.
Proof.
  cbv zeta. split; [|split; [|split; [|split]]].
  - unfold insert. destruct (noFilePath db); [done|].
    destruct (bool_decide _); [done|].
    pose proof (writeQueue_autoIncrement db collectionName values) as Hq.
    destruct (autoIncrement db collectionName values) as [[values1| | |] db1];
      cbn [fst snd] in *; try done.
    destruct (data db1 !! collectionName); cbn [fst snd]; [|done].
    cbn. by rewrite Hq.
  - rewrite update_db. unfold update. by destruct (noFilePath db).
  - unfold destroy. destruct (noFilePath db); [done|].
    by destruct (Lodash.reject _ 0 _).
  - unfold createCollection, setCollection. by destruct (noFilePath db).
  - unfold registerCollection, setCollection. by destruct (noFilePath db).
Qed.

Lemma drain_allowed n db disk :
  noFilePath db = false →
  filePath db ∉ denied disk →
  n = length (writeQueue db) →
  n ≠ 0%nat →
  drain n db disk
  = ({| filePath := filePath db; collections := collections db;
        data := data db; counters := counters db; schema := schema db;
        writeQueue := [] |},
     {| files := <[filePath db := JSON_stringify_state (engineState db)]> (files disk);
        denied := denied disk |}).
Proof.
  revert db disk. induction n as [|n IH]; intros db disk Hf Hd Hn Hne; [done|].
  destruct db as [fp colls dat cnt sch queue]. cbn [writeQueue] in Hn.
  destruct queue as [|c rest]; [done|].
  cbn [drain]. unfold writeQueue_worker. cbn [writeQueue].
  rewrite (write_allowed _ _ _ Hf Hd).
  cbn [filePath collections data counters schema] in *.
  destruct rest as [|c' rest'].
  { injection Hn as ->. done. }
  rewrite IH; try done.
  - cbn [filePath collections data counters schema files denied engineState].
    by rewrite insert_insert_eq.
  - cbn in Hn. by injection Hn.
  - cbn in Hn. lia.
Qed.

(** When the worker has run for every task of a write queue that is not
    empty, on a file that can be written, the queue is empty, the store is as
    it was, and the file holds the text of the whole state of the engine:
    whatever the number of tasks and the collections they name, the outcome
    on disk is that of one write. *)
Theorem drainAll_flushes db disk :
  noFilePath db = false →
  filePath db ∉ denied disk →
  writeQueue db ≠ [] →
  let db' := (drainAll db disk).1 in
  let disk' := (drainAll db disk).2 in
  writeQueue db' = []
  ∧ data db' = data db ∧ schema db' = schema db ∧ counters db' = counters db
  ∧ files disk' !! filePath db = Some (JSON_stringify_state (engineState db))
  ∧ (∀ path, path ≠ filePath db → files disk' !! path = files disk !! path)
  ∧ disk' = (write db "" disk).2.
Proof.
  intros Hf Hd Hq. cbv zeta. unfold drainAll.
  rewrite (drain_allowed _ db disk Hf Hd eq_refl)
    by (by destruct (writeQueue db)).
  rewrite (write_allowed _ _ _ Hf Hd). cbn [fst snd writeQueue data schema counters files].
  repeat split.
  - by rewrite lookup_insert_eq.
  - intros path Hp. by rewrite lookup_insert_ne.
Qed.

End Methods.

(** ** The properties on the sample store *)

(** The scenario of the specification: on a new engine, [users] is created
    with [{ id: autoIncrement, email: unique }]; the first insert gets the
    [id] 1, the same address again is rejected and the store keeps its one
    record, another address gets the [id] 2. *)
Example scenario_users :
  let db0 := (createCollection (Database_new Sample.config []) "users"
                (Some Sample.users_schema)).2 in
  let '(r1, db1) := insert Sample.JSON_parse db0 "users" [("email", VStr "a@x.com")] in
  let '(r2, db2) := insert Sample.JSON_parse db1 "users" [("email", VStr "a@x.com")] in
  let '(r3, db3) := insert Sample.JSON_parse db2 "users" [("email", VStr "b@x.com")] in
  r1 = Done [("email", VStr "a@x.com"); ("id", VNum 1)]
  ∧ r2 = FailAll [UniquenessValue "email" (VStr "a@x.com")]
  ∧ data db2 !! "users" = Some [[("email", VStr "a@x.com"); ("id", VNum 1)]]
  ∧ r3 = Done [("email", VStr "b@x.com"); ("id", VNum 2)]
  ∧ writeQueue db3 = ["users"; "users"; "users"].
Proof. vm_compute. repeat split. Qed.

(** A second record for the address of [alice] is turned away. *)
Lemma insert_rejects_collision_witness :
  insert Sample.JSON_parse Sample.users_db "users"
    [("email", VStr "a@x.com"); ("name", VStr "Al")]
  = (FailAll [UniquenessValue "email" (VStr "a@x.com")], Sample.users_db)
  ∧ data (insert Sample.JSON_parse Sample.users_db "users"
            [("email", VStr "a@x.com"); ("name", VStr "Al")]).2 !! "users"
    = Some [Sample.alice; Sample.bob].
Proof.
  destruct (insert_rejects_collision Sample.JSON_parse Sample.users_db "users"
              [("email", VStr "a@x.com"); ("name", VStr "Al")]
              Sample.users_schema [Sample.alice; Sample.bob] "email"
              {| Attr.type := Some "string"; Attr.unique := true;
                 Attr.autoIncrement := false |}
              Sample.alice)
    as (E & _ & _ & D).
  - reflexivity.
  - reflexivity.
  - reflexivity.
  - right. left.
  - reflexivity.
  - left.
  - discriminate.
  - reflexivity.
  - split; [exact E | exact D].
Defined.



(** C7 on the code: a candidate that supplies 0 for the auto-increment
    attribute does not keep it: it gets 3, and the counter moves from 2
    to 3. *)
Lemma autoIncrement_overwrites_zero :
  prop [("id", VNum 0); ("email", VStr "z@x.com")] "id" = VNum 0
  ∧ (autoIncrement Sample.users_db "users"
       [("id", VNum 0); ("email", VStr "z@x.com")]).1
    = Done [("id", VNum 3); ("email", VStr "z@x.com")]
  ∧ counter Sample.users_db "users" "id" = 2%Z
  ∧ counter (autoIncrement Sample.users_db "users"
               [("id", VNum 0); ("email", VStr "z@x.com")]).2 "users" "id"
    = 3%Z.
Proof. repeat split. Qed.

(** The text [true] under a [json] attribute is stored as the boolean; a
    text that does not parse is stored as it is. *)
Lemma insert_coerces_leniently_witness :
  (∃ stored db',
     insert Sample.JSON_parse Sample.docs_db "docs"
       [("title", VStr "a"); ("meta", VStr "true")]
     = (Done stored, db')
     ∧ prop stored "meta" = VBool true
     ∧ prop stored "title" = VStr "a")
  ∧ (∃ stored db',
       insert Sample.JSON_parse Sample.docs_db "docs"
         [("title", VStr "b"); ("meta", VStr "{ oops")]
       = (Done stored, db')
       ∧ prop stored "meta" = VStr "{ oops"
       ∧ prop stored "title" = VStr "b").
Proof.
  split.
  - destruct (insert_coerces_leniently Sample.JSON_parse Sample.docs_db "docs"
                [("title", VStr "a"); ("meta", VStr "true")]
                Sample.docs_schema [] ∅)
      as (supplied & db1 & stored & Ha & Hi & _ & Hjson & Hraw);
      [reflexivity | reflexivity | reflexivity | reflexivity | compute_done
      | reflexivity |].
    vm_compute in Ha. injection Ha as <- <-.
    eexists stored, _. split; [exact Hi|]. split.
    + rewrite (Hjson "meta" {| Attr.type := Some "json"; Attr.unique := false;
                               Attr.autoIncrement := false |});
        [reflexivity | compute_done | reflexivity | reflexivity].
    + rewrite (Hraw "title"); [reflexivity|].
      intros d Hd. vm_compute in Hd. injection Hd as <-. discriminate.
  - destruct (insert_coerces_leniently Sample.JSON_parse Sample.docs_db "docs"
                [("title", VStr "b"); ("meta", VStr "{ oops")]
                Sample.docs_schema [] ∅)
      as (supplied & db1 & stored & Ha & Hi & _ & Hjson & Hraw);
      [reflexivity | reflexivity | reflexivity | reflexivity | compute_done
      | reflexivity |].
    vm_compute in Ha. injection Ha as <- <-.
    eexists stored, _. split; [exact Hi|]. split.
    + rewrite (Hjson "meta" {| Attr.type := Some "json"; Attr.unique := false;
                               Attr.autoIncrement := false |});
        [reflexivity | compute_done | reflexivity | reflexivity].
    + rewrite (Hraw "title"); [reflexivity|].
      intros d Hd. vm_compute in Hd. injection Hd as <-. discriminate.
Defined.

(** C9 on the code: no user has the address, and the values set the unique
    attribute; [update] raises a [TypeError] at its call of [_.where], it
    does not call back with the empty list, and no write is requested. *)
Lemma update_no_match_throws :
  indicies (Sample.waterlineCriteria "users" (data Sample.users_db)
              ("email", VStr "nobody@x.com"))
  = []
  ∧ update Sample.waterlineCriteria Sample.ToPrimitive Sample.StringToNumber
      Sample.users_db "users" ("email", VStr "nobody@x.com")
      [("email", VStr "a@x.com")]
    = (TypeError, Sample.users_db)
  ∧ writeQueue
      (update Sample.waterlineCriteria Sample.ToPrimitive Sample.StringToNumber
         Sample.users_db "users" ("email", VStr "nobody@x.com")
         [("email", VStr "a@x.com")]).2
    = [].
Proof. repeat split. Qed.

(** No collection [ghosts] was ever registered. *)
Lemma describe_unknown_witness :
  describe Sample.users_db "ghosts" = Done None
  ∧ getCollection Sample.users_db "ghosts"
    = Done {| c_data := []; c_schema := []; c_counters := ∅ |}.
Proof.
  destruct (describe_unknown Sample.users_db "ghosts") as (E & G & _);
    [reflexivity | left; reflexivity |].
  split; [exact E|]. apply G; reflexivity.
Defined.

(** The file is the text of the whole store, for [users] as for [profiles]. *)
Lemma write_whole_state_witness :
  files (write Sample.JSON_stringify_state Sample.users_db "users"
           Sample.empty_disk).2
  = {[ ".tmp/disk.db" := Sample.JSON_stringify_state (engineState Sample.users_db) ]}
  ∧ write Sample.JSON_stringify_state Sample.users_db "users" Sample.empty_disk
    = write Sample.JSON_stringify_state Sample.users_db "profiles" Sample.empty_disk.
Proof.
  destruct (write_whole_state Sample.JSON_stringify_state Sample.users_db
              "users" "profiles" Sample.empty_disk)
    as (E & I & _); [reflexivity | compute_done |].
  split; [|exact I]. rewrite E. reflexivity.
Defined.

(** C6, as stated, fails: the counters of a dropped collection are still
    there, and a collection created anew under the name goes on counting
    from them. *)
Lemma dropCollection_leaves_counters :
  let db' := (dropCollection Sample.JSON_stringify_state Sample.users_db
                "users" [] Sample.empty_disk).1.2 in
  data db' !! "users" = None
  ∧ schema db' !! "users" = None
  ∧ counters db' !! "users" = Some {[ "id" := 2%Z ]}
  ∧ (insert Sample.JSON_parse
       (createCollection db' "users" (Some Sample.users_schema)).2 "users"
       [("email", VStr "n@x.com")]).1
    = Done [("email", VStr "n@x.com"); ("id", VNum 3)].
Proof. repeat split. Qed.

(** [users] and [profiles] are gone, [orders] and the counters are as before. *)
Lemma dropCollection_keeps_counters_witness :
  let db' := (dropCollection Sample.JSON_stringify_state Sample.users_db
                "users" ["profiles"] Sample.empty_disk).1.2 in
  data db' !! "users" = None
  ∧ schema db' !! "profiles" = None
  ∧ data db' !! "orders" = data Sample.users_db !! "orders"
  ∧ counters db' = counters Sample.users_db.
Proof.
  destruct (dropCollection_keeps_counters Sample.JSON_stringify_state
              Sample.users_db "users" ["profiles"] Sample.empty_disk)
    as (Hin & Hout & Hc & _); [reflexivity|].
  cbv zeta. split; [|split; [|split]].
  - apply Hin. left.
  - apply Hin. right. left.
  - apply Hout. compute_done.
  - exact Hc.
Defined.

(** C4, as stated, fails: a file that exists and is empty does not decode,
    and [read] hands back the empty state for it, without an error. *)
Lemma read_empty_file_no_error :
  files Sample.empty_file_disk !! filePath (Database_new Sample.config [])
  = Some ""
  ∧ Sample.JSON_parse_state "" = Thrown
  ∧ read Sample.JSON_parse_state (Database_new Sample.config [])
      Sample.empty_file_disk
    = (Done (FromDisk emptyState), Database_new Sample.config [],
       Sample.empty_file_disk).
Proof. repeat split. Qed.

(** A new engine reads a disk without its file, and one with a broken file. *)
Lemma read_missing_empty_or_corrupt_witness :
  read Sample.JSON_parse_state (Database_new Sample.config []) Sample.empty_disk
  = (Done (FromDisk emptyState), Database_new Sample.config [],
     Sample.empty_file_disk)
  ∧ read Sample.JSON_parse_state (Database_new Sample.config [])
      Sample.corrupt_disk
    = (Fail (SyntaxError "{ data: "), Database_new Sample.config [],
       Sample.corrupt_disk).
Proof.
  destruct (read_missing_empty_or_corrupt Sample.JSON_parse_state
              (Database_new Sample.config []) Sample.empty_disk)
    as (Hmissing & _); [reflexivity | compute_done |].
  destruct (read_missing_empty_or_corrupt Sample.JSON_parse_state
              (Database_new Sample.config []) Sample.corrupt_disk)
    as (_ & _ & Hcorrupt); [reflexivity | compute_done |].
  split.
  - rewrite Hmissing; reflexivity.
  - destruct (Hcorrupt "{ data: ") as (E & _); [reflexivity | discriminate | reflexivity |].
    rewrite E. reflexivity.
Defined.

(** C3 on the code: the query matches the one record with the [id] 1,
    which holds 7 under the unique attribute [code], and the values carry 8;
    [update] does not reject with an error for [code]: it raises a
    [TypeError] at its call of [_.where] and never calls back.  So it does
    when the values carry the 7 that the record holds. *)
Lemma update_unique_throws :
  indicies (Sample.waterlineCriteria "tickets" (data Sample.tickets_db)
              ("id", VNum 1))
  = [0%nat]
  ∧ update Sample.waterlineCriteria Sample.ToPrimitive Sample.StringToNumber
      Sample.tickets_db "tickets" ("id", VNum 1) [("code", VNum 8)]
    = (TypeError, Sample.tickets_db)
  ∧ update Sample.waterlineCriteria Sample.ToPrimitive Sample.StringToNumber
      Sample.tickets_db "tickets" ("id", VNum 1) [("code", VNum 7)]
    = (TypeError, Sample.tickets_db).
Proof. repeat split. Qed.

(** ** The further properties on the sample store *)

(** Neither an update nor a destroy for [alice] changes the store of the
    two users. *)
Lemma update_destroy_keep_records_witness :
  update Sample.waterlineCriteria Sample.ToPrimitive Sample.StringToNumber
    Sample.users_db "users" ("email", VStr "a@x.com") [("name", VStr "Al")]
  = (TypeError, Sample.users_db)
  ∧ destroy Sample.waterlineCriteria Sample.users_db "users"
      ("email", VStr "a@x.com")
    = (TypeError, Sample.users_db).
Proof.
  destruct (update_destroy_keep_records Sample.waterlineCriteria
              Sample.ToPrimitive Sample.StringToNumber Sample.users_db "users"
              ("email", VStr "a@x.com") [("name", VStr "Al")] "users"
              [Sample.alice; Sample.bob])
    as (U & _ & D & _); [reflexivity | reflexivity |].
  split; [exact U|]. apply D; [reflexivity | discriminate].
Defined.

(** [ghosts] was never registered in the store of the users. *)
Lemma unregistered_name_witness :
  insert Sample.JSON_parse Sample.users_db "ghosts" [("name", VStr "Boo")]
  = (Fail CollectionNotRegistered, Sample.users_db)
  ∧ update Sample.waterlineCriteria Sample.ToPrimitive Sample.StringToNumber
      Sample.users_db "ghosts" ("name", VStr "Boo") [("name", VStr "Boo")]
    = (TypeError, Sample.users_db)
  ∧ data (insert Sample.JSON_parse
            (destroy Sample.waterlineCriteria Sample.users_db "ghosts"
               ("name", VStr "Boo")).2
            "ghosts" [("name", VStr "Boo")]).2 !! "ghosts"
    = Some [[("name", VStr "Boo")]].
Proof.
  destruct (unregistered_name Sample.waterlineCriteria Sample.JSON_parse
              Sample.ToPrimitive Sample.StringToNumber Sample.users_db
              "ghosts" ("name", VStr "Boo") [("name", VStr "Boo")])
    as (I & U & _ & _ & _ & D); [reflexivity | reflexivity | reflexivity |].
  split; [exact I|]. split; [|exact D]. apply U. discriminate.
Defined.

(** After [users] is dropped, an insert into it is turned away. *)
Lemma dropCollection_unregisters_witness :
  let db' := (dropCollection Sample.JSON_stringify_state Sample.users_db
                "users" ["profiles"] Sample.empty_disk).1.2 in
  describe db' "users" = Done None
  ∧ insert Sample.JSON_parse db' "users" [("email", VStr "n@x.com")]
    = (Fail CollectionNotRegistered, db').
Proof.
  apply (dropCollection_unregisters Sample.JSON_parse Sample.JSON_stringify_state
           Sample.users_db "users" ["profiles"] Sample.empty_disk "users"
           [("email", VStr "n@x.com")]).
  - reflexivity.
  - left.
Defined.

(** [tickets], created in the store of the users, is described by its
    definition. *)
Lemma createCollection_describe_witness :
  describe (createCollection Sample.users_db "tickets"
              (Some Sample.tickets_schema)).2 "tickets"
  = Done (Some Sample.tickets_schema)
  ∧ data (createCollection Sample.users_db "tickets"
            (Some Sample.tickets_schema)).2 !! "users"
    = Some [Sample.alice; Sample.bob].
Proof.
  destruct (createCollection_describe Sample.users_db "tickets"
              (Some Sample.tickets_schema))
    as (_ & D & _ & _ & _ & O & _); [reflexivity|].
  split; [exact D|].
  destruct (O "users") as (E & _); [discriminate|]. rewrite E. reflexivity.
Defined.

(** Registering [users] again, with an empty [data] and another schema,
    keeps the two users. *)
Lemma registerCollection_keeps_records_witness :
  data (registerCollection Sample.users_db "users"
          (Some [], Some Sample.docs_schema)).2 !! "users"
  = Some [Sample.alice; Sample.bob]
  ∧ schema (registerCollection Sample.users_db "users"
              (Some [], Some Sample.docs_schema)).2 !! "users"
    = Some Sample.docs_schema.
Proof.
  destruct (registerCollection_keeps_records Sample.users_db "users"
              (Some []) (Some Sample.docs_schema))
    as (D & _ & S & _); [reflexivity|].
  split; [exact D | exact S].
Defined.

(** A third user with a new address is put after the two, with the name
    as given. *)
Lemma insert_accepted_appends_witness :
  ∃ stored,
    (insert Sample.JSON_parse Sample.users_db "users"
       [("email", VStr "c@x.com"); ("name", VStr "Cy")]).1 = Done stored
    ∧ data (insert Sample.JSON_parse Sample.users_db "users"
              [("email", VStr "c@x.com"); ("name", VStr "Cy")]).2 !! "users"
      = Some ([Sample.alice; Sample.bob] ++ [stored])
    ∧ prop stored "name" = VStr "Cy".
Proof.
  destruct (insert_accepted_appends Sample.JSON_parse Sample.users_db "users"
              Sample.users_schema [Sample.alice; Sample.bob] {[ "id" := 2%Z ]}
              [("email", VStr "c@x.com"); ("name", VStr "Cy")])
    as (Hiff & Hacc);
    [reflexivity | reflexivity | reflexivity | reflexivity
     | compute_done | compute_done |].
  destruct Hacc as (stored & E & D & K & _).
  { apply Hiff. exact I. }
  exists stored. split; [exact E|]. split; [exact D|].
  rewrite K; [reflexivity|]. intros attrDef_ Ho. discriminate Ho.
Defined.

(** [users], dropped and created again, goes on with the [id] 3. *)
Lemma drop_create_continues_counting_witness :
  let db1 := (dropCollection Sample.JSON_stringify_state Sample.users_db
                "users" [] Sample.empty_disk).1.2 in
  let db2 := (createCollection db1 "users" (Some Sample.users_schema)).2 in
  data db2 !! "users" = Some []
  ∧ ∃ stored,
      (insert Sample.JSON_parse db2 "users" [("email", VStr "n@x.com")]).1
      = Done stored
      ∧ prop stored "id" = VNum 3.
Proof.
  destruct (drop_create_continues_counting Sample.JSON_parse
              Sample.JSON_stringify_state Sample.users_db "users" []
              Sample.empty_disk Sample.users_schema "id"
              {| Attr.type := Some "integer"; Attr.unique := false;
                 Attr.autoIncrement := true |}
              [("email", VStr "n@x.com")])
    as (D & _ & stored & E & P & _).
  - reflexivity.
  - compute_done.
  - left.
  - reflexivity.
  - intros m. reflexivity.
  - reflexivity.
  - by vm_compute.
  - split; [exact D|]. exists stored. split; [exact E | exact P].
Defined.

(** The store of the two users holds no address twice, and does not after
    an insert. *)
Lemma insert_keeps_unique_witness :
  ∃ records',
    data (insert Sample.JSON_parse Sample.users_db "users"
            [("email", VStr "c@x.com")]).2 !! "users" = Some records'
    ∧ unique_inv Sample.users_schema records'.
Proof.
  apply (insert_keeps_unique Sample.JSON_parse Sample.users_db "users"
           Sample.users_schema [Sample.alice; Sample.bob] {[ "id" := 2%Z ]}
           [("email", VStr "c@x.com")]).
  - reflexivity.
  - reflexivity.
  - reflexivity.
  - reflexivity.
  - compute_done.
  - compute_done.
  - intros a d Hin Hu.
    apply elem_of_cons in Hin as [Hin|Hin]; [injection Hin as -> ->; discriminate Hu|].
    apply elem_of_cons in Hin as [Hin|Hin];
      [injection Hin as -> ->; split; [reflexivity | discriminate]|].
    by apply elem_of_nil in Hin.
  - intros a d Hin Hu.
    apply elem_of_cons in Hin as [Hin|Hin]; [injection Hin as -> ->; discriminate Hu|].
    apply elem_of_cons in Hin as [Hin|Hin]; [injection Hin as -> ->; compute_done|].
    by apply elem_of_nil in Hin.
Defined.

(** The store of the two users, written and read by the engine of the
    documents on the same file. *)
Lemma write_then_read_witness :
  let disk1 := (write Sample.JSON_stringify_state Sample.users_db "users"
                  Sample.empty_disk).2 in
  let reader' := (read (Sample.JSON_parse_among [Sample.users_state])
                    Sample.docs_db disk1).1.2 in
  data reader' = data Sample.users_db
  ∧ schema reader' = schema Sample.users_db
  ∧ counters reader' = counters Sample.users_db.
Proof.
  destruct (write_then_read (Sample.JSON_parse_among [Sample.users_state])
              Sample.JSON_stringify_state Sample.users_db Sample.docs_db
              "users" Sample.empty_disk)
    as (_ & _ & D & S & C & _).
  - reflexivity.
  - compute_done.
  - reflexivity.
  - compute_done.
  - vm_compute. reflexivity.
  - split; [exact D|]. split; [exact S | exact C].
Defined.

(** The first start with [users] and [docs] configured. *)
Lemma initialize_first_start_witness :
  let db' := (initialize Sample.JSON_parse_state
                (Database_new Sample.config Sample.configured)
                Sample.empty_disk).1.2 in
  data db' !! "docs" = Some []
  ∧ schema db' !! "docs" = Some Sample.docs_schema
  ∧ counters db' !! "docs" = Some ∅
  ∧ data db' !! "tickets" = None.
Proof.
  destruct (initialize_first_start Sample.JSON_parse_state Sample.config
              Sample.configured Sample.empty_disk)
    as (_ & _ & Hin & Hout & _); [compute_done | reflexivity | compute_done |].
  destruct (Hin "docs" (Some [], Some Sample.docs_schema)) as (D & S & C);
    [reflexivity|].
  destruct (Hout "tickets") as (D' & _); [reflexivity|].
  split; [exact D|]. split; [exact S|]. split; [exact C | exact D'].
Defined.

(** A restart on the file of the two users. *)
Lemma initialize_restart_witness :
  let db' := (initialize (Sample.JSON_parse_among [Sample.users_state])
                (Database_new Sample.config Sample.configured)
                Sample.users_disk).1.2 in
  data db' !! "users" = Some [Sample.alice; Sample.bob]
  ∧ counters db' !! "users" = Some {[ "id" := 2%Z ]}
  ∧ data db' !! "docs" = Some [].
Proof.
  destruct (initialize_restart (Sample.JSON_parse_among [Sample.users_state])
              Sample.config Sample.configured Sample.users_disk
              (Sample.JSON_stringify_state Sample.users_state)
              Sample.users_state)
    as (_ & _ & Hin & _);
    [compute_done | reflexivity | compute_done | compute_done
     | vm_compute; reflexivity |].
  destruct (Hin "users" (None, Some Sample.users_schema)) as (D & _ & C);
    [reflexivity|].
  destruct (Hin "docs" (Some [], Some Sample.docs_schema)) as (D' & _);
    [reflexivity|].
  split; [rewrite D; reflexivity|]. split; [rewrite C; reflexivity|].
  rewrite D'. reflexivity.
Defined.

(** A file that the engine is kept from, and a file that is no JSON. *)
Lemma initialize_read_error_witness :
  (initialize Sample.JSON_parse_state
     (Database_new Sample.config Sample.configured) Sample.locked_disk).1.1
  = Ended (Fail (IOError ".tmp/disk.db"))
  ∧ initialize Sample.JSON_parse_state
      (Database_new Sample.config Sample.configured) Sample.corrupt_disk
    = (Ended (Fail (SyntaxError "{ data: ")),
       Database_new Sample.config Sample.configured, Sample.corrupt_disk).
Proof.
  split.
  - destruct (initialize_read_error Sample.JSON_parse_state Sample.config
                Sample.configured Sample.locked_disk) as [Hden _].
    destruct Hden as (E & _); [compute_done|]. exact E.
  - destruct (initialize_read_error Sample.JSON_parse_state Sample.config
                Sample.configured Sample.corrupt_disk) as [_ Hbad].
    apply Hbad; [compute_done | reflexivity | discriminate | reflexivity].
Defined.

(** With the two users in memory the corrupt file is not looked at. *)
Lemma initialize_in_memory_witness :
  (initialize Sample.JSON_parse_state Sample.loaded_db Sample.corrupt_disk).1.1
  = NeverCalledBack
  ∧ data (initialize Sample.JSON_parse_state Sample.loaded_db
            Sample.corrupt_disk).1.2 !! "users"
    = Some [Sample.alice; Sample.bob]
  ∧ schema (initialize Sample.JSON_parse_state Sample.loaded_db
              Sample.corrupt_disk).1.2 !! "docs"
    = Some Sample.docs_schema.
Proof.
  destruct (initialize_in_memory Sample.JSON_parse_state Sample.loaded_db
              Sample.corrupt_disk)
    as (E & _ & D & _ & S); [reflexivity | compute_done | compute_done |].
  split; [exact E|]. split.
  - apply D. reflexivity.
  - apply (S "docs" (Some [], Some Sample.docs_schema)). reflexivity.
Defined.

(** Three waiting writes leave the file with the text of the store. *)
Lemma drainAll_flushes_witness :
  writeQueue (drainAll Sample.JSON_stringify_state Sample.queued_db
                Sample.empty_disk).1 = []
  ∧ files (drainAll Sample.JSON_stringify_state Sample.queued_db
             Sample.empty_disk).2 !! ".tmp/disk.db"
    = Some (Sample.JSON_stringify_state (engineState Sample.queued_db)).
Proof.
  destruct (drainAll_flushes Sample.JSON_stringify_state Sample.queued_db
              Sample.empty_disk)
    as (Q & _ & _ & _ & F & _); [reflexivity | compute_done | discriminate |].
  split; [exact Q | exact F].
Defined.
